(** * Similarity: corpus store, scoring facade and snapshot persistence

    A shallow embedding of [similarities/similarity.py] (class [Similarity]).
    Python objects are modelled by the types their annotations give them:
    documents and mapping keys are [str], corpus ids are [int] (every write
    to [self.corpus] in the source uses an integer key), embeddings are lists
    of floats.  The sentence encoder, the score functions and
    [semantic_search] live outside the file and are taken as interfaces. *)

From Stdlib Require Import List ZArith String Ascii Bool Lia.
From Stdlib Require Import DecimalString DecimalZ DecimalPos DecimalFacts.
From Stdlib Require Finite.
Import ListNotations.

Local Open Scope string_scope.
Local Open Scope list_scope.
Local Open Scope Z_scope.

(** ** Python builtins used by the class *)

(** Decidable equality on dictionary keys ([==] on [int] and [str]). *)
Class KeyEq (K : Type) := key_eq_dec : forall x y : K, {x = y} + {x <> y}.

#[export] Instance Z_KeyEq : KeyEq Z := Z.eq_dec.
#[export] Instance string_KeyEq : KeyEq string := string_dec.

(** [len(x)] *)
Definition len {A : Type} (l : list A) : Z := Z.of_nat (List.length l).

(** [enumerate(xs)], counting from [i]. *)
Fixpoint enumerate_from {A : Type} (i : Z) (l : list A) : list (Z * A) :=
  match l with
  | [] => []
  | x :: r => (i, x) :: enumerate_from (i + 1) r
  end.

Definition enumerate {A : Type} (l : list A) : list (Z * A) := enumerate_from 0 l.

(** [xs[0:stop]]: a negative [stop] counts from the end, and the bounds are
    clamped to the list. *)
Definition slice_to {A : Type} (l : list A) (stop : Z) : list A :=
  if stop <? 0 then firstn (Z.to_nat (len l + stop)) l
  else firstn (Z.to_nat stop) l.

(** [x in xs] on a list of strings. *)
Definition str_in (x : string) (l : list string) : bool :=
  existsb (String.eqb x) l.

(** Truth value of a container: empty is false. *)
Definition truthy {A : Type} (l : list A) : bool :=
  match l with [] => false | _ :: _ => true end.

(** *** Insertion-ordered dictionaries

    A Python [dict] keeps its keys in insertion order; assigning to a key
    that is present replaces the value in place, assigning to a new key
    appends it. *)
Module PyDict.

Definition dict (K V : Type) : Type := list (K * V).

Section Ops.
Context {K V : Type} `{KeyEq K}.

Definition keys (d : dict K V) : list K := map fst d.
Definition values (d : dict K V) : list V := map snd d.
Definition items (d : dict K V) : list (K * V) := d.

(** [d[k]]; [None] stands for [KeyError]. *)
Fixpoint getitem (k : K) (d : dict K V) : option V :=
  match d with
  | [] => None
  | (k', v') :: r => if key_eq_dec k k' then Some v' else getitem k r
  end.

(** [d[k] = v] *)
Fixpoint setitem (k : K) (v : V) (d : dict K V) : dict K V :=
  match d with
  | [] => [(k, v)]
  | (k', v') :: r =>
      if key_eq_dec k k' then (k', v) :: r else (k', v') :: setitem k v r
  end.

(** [k in d] *)
Definition contains (k : K) (d : dict K V) : bool :=
  match getitem k d with Some _ => true | None => false end.

(** [for k, v in pairs: d[k] = v] *)
Definition set_all (d : dict K V) (pairs : list (K * V)) : dict K V :=
  fold_left (fun acc kv => setitem (fst kv) (snd kv) acc) pairs d.

(** [d.update(other)] *)
Definition update (d other : dict K V) : dict K V := set_all d (items other).

(** [{k: v for k, v in pairs}] *)
Definition of_pairs (pairs : list (K * V)) : dict K V := set_all [] pairs.

(** Representation invariant of a dictionary: no key occurs twice. *)
Definition wf (d : dict K V) : Prop := NoDup (keys d).

End Ops.
End PyDict.

Import PyDict.

(** *** [str(int)] and [int(str)] in base 10 *)

(** [str(i)] for an [int]: decimal digits, a leading ["-"] when negative. *)
Definition py_str (z : Z) : string := NilZero.string_of_int (Z.to_int z).

(** The ASCII characters that [int] skips around a literal: tab, line feed,
    vertical tab, form feed, carriage return and the space.  (The
    separators [0x1c .. 0x1f], which [str.strip] drops, are not among them:
    [int] raises on them.) *)
Definition is_space (c : ascii) : bool :=
  let n := nat_of_ascii c in
  ((9 <=? n) && (n <=? 13) || (n =? 32))%nat.

Definition is_digit (c : ascii) : bool :=
  let n := nat_of_ascii c in ((48 <=? n) && (n <=? 57))%nat.

Fixpoint lstrip (s : string) : string :=
  match s with
  | String c r => if is_space c then lstrip r else s
  | EmptyString => EmptyString
  end.

(** Drops trailing white space: a suffix made of white space only
    collapses to the empty string. *)
Fixpoint rstrip (s : string) : string :=
  match s with
  | EmptyString => EmptyString
  | String c r =>
      match rstrip r with
      | EmptyString => if is_space c then EmptyString else String c EmptyString
      | r' => String c r'
      end
  end.

Definition strip (s : string) : string := rstrip (lstrip s).

(** Digit groups of an integer literal: single underscores are allowed
    between two digits and nowhere else.  [prev] tells whether the previous
    character was a digit.  Returns the digits without the underscores. *)
Fixpoint digit_groups (prev : bool) (s : string) : option string :=
  match s with
  | EmptyString => if prev then Some EmptyString else None
  | String c r =>
      if is_digit c then option_map (String c) (digit_groups true r)
      else if (Ascii.eqb c "_" && prev)%bool then
        match r with
        | EmptyString => None
        | String _ _ => digit_groups false r
        end
      else None
  end.

Definition parse_digits (s : string) : option Z :=
  match digit_groups false s with
  | None => None
  | Some ds => option_map Z.of_uint (NilZero.uint_of_string ds)
  end.

(** [int(s)] for a [str] of ASCII characters; [None] stands for
    [ValueError].  Surrounding white space, one sign and underscores
    between digits are accepted, as Python does.  The model is exact on
    the names that [plain_name] describes below: ASCII only (the decimal
    digits and white space of other scripts, which [int] also accepts, are
    not modelled) and short enough for the limit CPython puts on the number
    of digits (4300 by default). *)
Definition py_int (s : string) : option Z :=
  match strip s with
  | String "+" r => parse_digits r
  | String "-" r => option_map Z.opp (parse_digits r)
  | s' => parse_digits s'
  end.

(** A string on which [py_int] is exactly [int]: ASCII characters only, and
    at most 4300 of them. *)
Definition plain_name (s : string) : Prop :=
  Forall (fun c => (nat_of_ascii c < 128)%nat) (list_ascii_of_string s) /\
  Z.of_nat (String.length s) <= 4300.

(** ** External collaborators *)

(** Floating-point scalars with the one operation the class itself performs
    on them ([1 - x]). *)
Class Float := {
  float : Type;
  float_one : float;
  float_sub : float -> float -> float
}.

Section Arrays.
Context `{Float}.

(** An embedding as stored by the class: one row of [ndarray.tolist()]. *)
Definition embedding : Type := list float.

(** What [encode] returns: a vector for a single sentence, a matrix with
    one row per sentence for a list. *)
Inductive ndarray : Type :=
| Vec (v : list float)
| Mat (m : list (list float)).

(** A 2-D score tensor. *)
Definition tensor : Type := list (list float).

(** [1 - t], elementwise. *)
Definition rsub_one (t : tensor) : tensor :=
  map (map (fun x => float_sub float_one x)) t.

(** One search hit: [{'corpus_id': ..., 'score': ...}]. *)
Record hit : Type := { corpus_id : Z; score : float }.

Definition score_fn : Type := ndarray -> ndarray -> tensor.

End Arrays.

(** [text2vec.SentenceModel.encode], split by the shape of its argument:
    a single string gives one vector, a list gives one row per sentence in
    the same order. *)
Class SentenceModel `{Float} := {
  encode_one : string -> embedding;
  encode_batch : list string -> list embedding;
  encode_batch_length : forall l, List.length (encode_batch l) = List.length l
}.

(** [similarities.utils.util] and the [numpy] conversion used by
    [most_similar]. *)
Class Util `{Float} := {
  cos_sim : score_fn;
  dot_score : score_fn;
  semantic_search : ndarray -> ndarray -> Z -> score_fn -> list (list hit);
  np_array_float32 : list embedding -> ndarray
}.

(** ** The class [Similarity] *)

Inductive exn : Type :=
| ValueError
| KeyError
| IOError
| JSONDecodeError
| UnicodeDecodeError
| RecursionError
| AttributeError.

(** The mutable attributes of an instance. *)
Record Similarity `{Float} : Type := {
  corpus : dict Z string;
  corpus_embeddings : list embedding
}.

(** Argument of [add_corpus]: [Union[List[str], Dict[str, str]]]. *)
Inductive corpus_arg : Type :=
| CorpusList (l : list string)
| CorpusDict (d : dict string string).

Definition isinstance_list (c : corpus_arg) : bool :=
  match c with CorpusList _ => true | CorpusDict _ => false end.

(** Iterating the argument: a list yields its elements, a dict its keys. *)
Definition iter_corpus (c : corpus_arg) : list string :=
  match c with CorpusList l => l | CorpusDict d => keys d end.

(** Argument of [similarity] and [_get_vector]: [Union[str, List[str]]]. *)
Inductive sentences : Type :=
| Sentence (s : string)
| Sentences (l : list string).

(** A query id: a position given by [enumerate] or a key of the caller's
    mapping. *)
Inductive qid : Type :=
| QInt (z : Z)
| QStr (s : string).

#[export] Instance qid_KeyEq : KeyEq qid.
Proof.
  intros x y; unfold KeyEq in *.
  decide equality; [apply Z.eq_dec | apply string_dec].
Defined.

(** Argument of [most_similar]: [Union[str, List[str], Dict[str, str]]]. *)
Inductive queries_arg : Type :=
| QueriesStr (s : string)
| QueriesList (l : list string)
| QueriesDict (d : dict qid string).

Section Class_Similarity.
Context `{SentenceModel}.

(** The attributes as [__init__] sets them before it looks at its
    [corpus] argument: [self.corpus = {}], [self.corpus_embeddings = []]. *)
Definition fresh : Similarity := {| corpus := []; corpus_embeddings := [] |}.

(** [__len__]: [len(self.corpus)] *)
Definition __len__ (self : Similarity) : Z := len (corpus self).

(** Body of the [for id, doc in enumerate(corpus)] loop of [add_corpus]. *)
Definition add_corpus_step (self : Similarity) (is_list : bool) (start_id : Z)
    (new_corpus : dict Z string) (p : Z * string) : dict Z string :=
  let '(id, doc) := p in
  if is_list then
    if negb (str_in doc (values (corpus self)))
    then setitem (start_id + id) doc new_corpus else new_corpus
  else
    if negb (str_in doc (values (corpus self)))
    then setitem id doc new_corpus else new_corpus.

(** The dictionary [new_corpus] when the loop ends. *)
Definition add_corpus_new (c : corpus_arg) (self : Similarity) : dict Z string :=
  let start_id := if truthy (corpus self) then len (corpus self) else 0 in
  fold_left (add_corpus_step self (isinstance_list c) start_id)
            (enumerate (iter_corpus c)) [].

Definition add_corpus (c : corpus_arg) (self : Similarity) : Similarity :=
  let new_corpus := add_corpus_new c self in
  let corpus' := update (corpus self) new_corpus in
  let new_embeddings := encode_batch (values new_corpus) in
  {| corpus := corpus';
     corpus_embeddings :=
       if truthy (corpus_embeddings self)
       then corpus_embeddings self ++ new_embeddings
       else new_embeddings |}.

(** [__init__], as far as the store goes: [corpus=None] leaves it empty. *)
Definition __init__ (corpus : option corpus_arg) : Similarity :=
  match corpus with
  | None => fresh
  | Some c => add_corpus c fresh
  end.

(** [_get_vector]: one call to the encoder. *)
Definition _get_vector (s : sentences) : ndarray :=
  match s with
  | Sentence x => Vec (encode_one x)
  | Sentences l => Mat (encode_batch l)
  end.

Context `{!Util}.

(** [self.score_functions = {'cos_sim': cos_sim, 'dot': dot_score}] *)
Definition score_functions : dict string score_fn :=
  [("cos_sim", cos_sim); ("dot", dot_score)].

Definition similarity (a b : sentences) (score_function : string)
  : exn + tensor :=
  if negb (contains score_function score_functions) then inl ValueError
  else
    match getitem score_function score_functions with
    | None => inl KeyError
    | Some f =>
        let text_emb1 := _get_vector a in
        let text_emb2 := _get_vector b in
        inr (f text_emb1 text_emb2)
    end.

(** [distance]: the score function is left at its default, ["cos_sim"]. *)
Definition distance (a b : sentences) : exn + tensor :=
  match similarity a b "cos_sim" with
  | inl e => inl e
  | inr t => inr (rsub_one t)
  end.

(** The two normalising [if]s at the head of [most_similar]: a string is
    wrapped in a list, a list becomes [{id: query}] by [enumerate], a dict
    is kept. *)
Definition normalize_queries (queries : queries_arg) : dict qid string :=
  match queries with
  | QueriesStr s =>
      of_pairs (map (fun p => (QInt (fst p), snd p)) (enumerate [s]))
  | QueriesList l =>
      of_pairs (map (fun p => (QInt (fst p), snd p)) (enumerate l))
  | QueriesDict d => d
  end.

Definition query_result : Type := dict qid (dict Z float).

(** Inner loop [for hit in hits[0:topn]] for one [idx];
    [qid] is [queries_ids_map[idx]], looked up when the body runs. *)
Fixpoint fill_hits (qid_of_idx : option qid) (hits : list hit)
    (result : query_result) : exn + query_result :=
  match hits with
  | [] => inr result
  | h :: rest =>
      match qid_of_idx with
      | None => inl KeyError
      | Some q =>
          match getitem q result with
          | None => inl KeyError
          | Some inner =>
              fill_hits qid_of_idx rest
                (setitem q (setitem (corpus_id h) (score h) inner) result)
          end
      end
  end.

(** Outer loop [for idx, hits in enumerate(all_hits)]. *)
Fixpoint fill_result (queries_ids_map : dict Z qid) (topn : Z)
    (all_hits : list (Z * list hit)) (result : query_result)
  : exn + query_result :=
  match all_hits with
  | [] => inr result
  | (idx, hits) :: rest =>
      match fill_hits (getitem idx queries_ids_map) (slice_to hits topn) result with
      | inl e => inl e
      | inr result' => fill_result queries_ids_map topn rest result'
      end
  end.

Definition most_similar (queries : queries_arg) (topn : Z)
    (score_function : string) (self : Similarity) : exn + query_result :=
  let queries := normalize_queries queries in
  if negb (contains score_function score_functions) then inl ValueError
  else
    match getitem score_function score_functions with
    | None => inl KeyError
    | Some f =>
        let result := of_pairs (map (fun p => (fst p, [])) (items queries)) in
        let queries_ids_map := of_pairs (enumerate (keys queries)) in
        let queries_texts := values queries in
        let queries_embeddings := _get_vector (Sentences queries_texts) in
        let corpus_embeddings := np_array_float32 (corpus_embeddings self) in
        let all_hits :=
          semantic_search queries_embeddings corpus_embeddings topn f in
        fill_result queries_ids_map topn (enumerate all_hits) result
    end.

(** *** Snapshots *)

(** One member of the snapshot object, [{"doc": ..., "doc_emb": ...}];
    a field is [None] when the member lacks it. *)
Record entry : Type := { doc : option string; doc_emb : option embedding }.

(** What [open] and [json.load] make of the path, by the exception they
    raise or the value they give:
    - [FileMissing]: [open] raises an [IOError] (no such file, no
      permission, a directory);
    - [FileNotUtf8]: the bytes are not UTF-8, reading them raises
      [UnicodeDecodeError];
    - [FileNotJson]: the text is not JSON, [json.load] raises
      [JSONDecodeError];
    - [FileTooDeep]: the JSON text is nested beyond the recursion limit,
      [json.load] raises [RecursionError];
    - [FileJsonNotObject]: the JSON value is not an object, so
      [corpus_emb.items()] raises [AttributeError];
    - [FileJson]: the members of a JSON object in file order.
    The members of an object are taken as typed: each is an object, ["doc"]
    is a string and ["doc_emb"] a list of floats whenever they are there. *)
Inductive file : Type :=
| FileMissing
| FileNotUtf8
| FileNotJson
| FileTooDeep
| FileJsonNotObject
| FileJson (members : list (string * entry)).

(** [json.dump] of a dict with [int] keys: each key is written as [str(key)]. *)
Definition json_dump (d : dict Z entry) : list (string * entry) :=
  map (fun kv => (py_str (fst kv), snd kv)) (items d).

(** [json.load] of an object: a dict of its members, a repeated name keeping
    its last value. *)
Definition json_load (members : list (string * entry)) : dict string entry :=
  of_pairs members.

(** The comprehension of [save_index],
    [{id: {"doc": self.corpus[id], "doc_emb": emb} for id, emb in zip(...)}]. *)
Fixpoint corpus_emb_of (self_corpus : dict Z string)
    (pairs : list (Z * embedding)) (acc : dict Z entry)
  : exn + dict Z entry :=
  match pairs with
  | [] => inr acc
  | (id, emb) :: rest =>
      match getitem id self_corpus with
      | None => inl KeyError
      | Some d =>
          corpus_emb_of self_corpus rest
            (setitem id {| doc := Some d; doc_emb := Some emb |} acc)
      end
  end.

(** [save_index]: the content written to [index_path]. *)
Definition save_index (self : Similarity) : exn + file :=
  match corpus_emb_of (corpus self)
          (combine (keys (corpus self)) (corpus_embeddings self)) [] with
  | inl e => inl e
  | inr corpus_emb => inr (FileJson (json_dump corpus_emb))
  end.

(** How a call ends: it returns, it returns after logging an error, or an
    exception leaves it. *)
Inductive outcome : Type :=
| Returned
| LoggedError
| Raised (e : exn).

(** The [for id, corpus_dict in corpus_emb.items()] loop of [load_index].
    [self.corpus] is written as the loop goes; the embeddings are collected
    in a local list.  In [self.corpus[int(id)] = corpus_dict["doc"]] the
    right-hand side is evaluated first. *)
Fixpoint load_loop (entries : list (string * entry))
    (self_corpus : dict Z string) (corpus_embeddings : list embedding)
  : dict Z string * (exn + list embedding) :=
  match entries with
  | [] => (self_corpus, inr corpus_embeddings)
  | (id, corpus_dict) :: rest =>
      match doc corpus_dict with
      | None => (self_corpus, inl KeyError)
      | Some d =>
          match py_int id with
          | None => (self_corpus, inl ValueError)
          | Some i =>
              let self_corpus := setitem i d self_corpus in
              match doc_emb corpus_dict with
              | None => (self_corpus, inl KeyError)
              | Some e => load_loop rest self_corpus (corpus_embeddings ++ [e])
              end
          end
      end
  end.

(** The [try] block of [load_index]. *)
Definition load_index_try (f : file) (self : Similarity)
  : Similarity * option exn :=
  match f with
  | FileMissing => (self, Some IOError)
  | FileNotUtf8 => (self, Some UnicodeDecodeError)
  | FileNotJson => (self, Some JSONDecodeError)
  | FileTooDeep => (self, Some RecursionError)
  | FileJsonNotObject => (self, Some AttributeError)
  | FileJson members =>
      let corpus_emb := json_load members in
      match load_loop (items corpus_emb) (corpus self) [] with
      | (c, inl e) =>
          ({| corpus := c; corpus_embeddings := corpus_embeddings self |}, Some e)
      | (c, inr embs) =>
          ({| corpus := c; corpus_embeddings := embs |}, None)
      end
  end.

(** [except (IOError, json.JSONDecodeError)].  [UnicodeDecodeError] and
    the [ValueError] of [int] are [ValueError]s, as [JSONDecodeError] is,
    but they are not [JSONDecodeError]s. *)
Definition load_index_catches (e : exn) : bool :=
  match e with
  | IOError | JSONDecodeError => true
  | ValueError | KeyError | UnicodeDecodeError | RecursionError
  | AttributeError => false
  end.

Definition load_index (f : file) (self : Similarity) : Similarity * outcome :=
  match load_index_try f self with
  | (self', None) => (self', Returned)
  | (self', Some e) =>
      if load_index_catches e then (self', LoggedError) else (self', Raised e)
  end.

End Class_Similarity.

(** ** Notions used in the statements *)

(** The test [doc not in self.corpus.values()]. *)
Definition is_new `{Float} (self : Similarity) (doc : string) : bool :=
  negb (str_in doc (values (corpus self))).

(** The invariant of the data model: as many embeddings as documents. *)
Definition aligned `{Float} (self : Similarity) : Prop :=
  len (corpus self) = len (corpus_embeddings self).

(** A snapshot member that carries both fields. *)
Definition full_entry `{Float} (d : string) (e : embedding) : entry :=
  {| doc := Some d; doc_emb := Some e |}.

(** A snapshot member [m] that [load_index] reads as id, document and
    embedding [p]. *)
Definition parsed_entry `{Float} (m : string * entry)
    (p : Z * string * embedding) : Prop :=
  py_int (fst m) = Some (fst (fst p)) /\
  doc (snd m) = Some (snd (fst p)) /\
  doc_emb (snd m) = Some (snd p).

(** The names registered in [score_functions]. *)
Definition registered : list string := ["cos_sim"; "dot"].

(** Entry [i][j] of a score tensor. *)
Definition entry_at `{Float} (t : tensor) (i j : nat) : option float :=
  match nth_error t i with
  | Some row => nth_error row j
  | None => None
  end.

(** The query ids as the specification words them: a bare string is the
    single query [0], a sequence is numbered from [0], a mapping keeps its
    own keys. *)
Definition query_ids (queries : queries_arg) : list qid :=
  match queries with
  | QueriesStr _ => [QInt 0]
  | QueriesList l => map (fun n => QInt (Z.of_nat n)) (seq 0 (List.length l))
  | QueriesDict d => keys d
  end.

(** A mapping argument is a dictionary: no key twice. *)
Definition queries_wf (queries : queries_arg) : Prop :=
  match queries with
  | QueriesDict d => wf d
  | QueriesStr _ | QueriesList _ => True
  end.

(** The ids are the positions: the keys of the corpus are [0, 1, ...,
    len - 1], in this order. *)
Definition dense `{Float} (self : Similarity) : Prop :=
  keys (corpus self) = map Z.of_nat (seq 0 (List.length (corpus self))).

(** What the result loop of [most_similar] writes for one hit. *)
Definition hit_pair `{Float} (h : hit) : Z * float := (corpus_id h, score h).

(** The member names of a snapshot, none when there is no JSON object. *)
Definition member_names `{Float} (f : file) : list string :=
  match f with
  | FileJson members => map fst members
  | FileMissing | FileNotUtf8 | FileNotJson | FileTooDeep
  | FileJsonNotObject => []
  end.

(** ** A stub encoder with fixed integer vectors

    Deterministic stand-ins for the external collaborators, used to run the
    class on concrete inputs. *)
Module Stub.

Definition Z_Float : Float :=
  {| float := Z; float_one := 1; float_sub := Z.sub |}.

Definition embed (s : string) : list Z := [Z.of_nat (String.length s); 1].

Definition rows (a : @ndarray Z_Float) : list (list Z) :=
  match a with Vec v => [v] | Mat m => m end.

Definition dot (u v : list Z) : Z :=
  fold_left Z.add (map (fun p => fst p * snd p) (combine u v)) 0.

Definition pairwise_dot (a b : @ndarray Z_Float) : list (list Z) :=
  map (fun u => map (dot u) (rows b)) (rows a).

(** Hits of one score row, in corpus order, cut at [top_k]. *)
Definition search (q c : @ndarray Z_Float) (top_k : Z)
    (f : @score_fn Z_Float) : list (list (@hit Z_Float)) :=
  map (fun row =>
         firstn (Z.to_nat top_k)
           (map (fun p => @Build_hit Z_Float (fst p) (snd p)) (enumerate row)))
      (f q c).

Definition model : @SentenceModel Z_Float :=
  @Build_SentenceModel Z_Float embed (map embed) (fun l => length_map embed l).

Definition util : @Util Z_Float :=
  @Build_Util Z_Float pairwise_dot pairwise_dot search (@Mat Z_Float).

Definition store : Type := @Similarity Z_Float.
Definition mk (c : dict Z string) (e : list (list Z)) : store :=
  @Build_Similarity Z_Float c e.
Definition empty : store := @__init__ Z_Float model None.
Definition add_corpus : corpus_arg -> store -> store :=
  @add_corpus Z_Float model.
Definition similarity := @similarity Z_Float model util.
Definition distance := @distance Z_Float model util.
Definition most_similar := @most_similar Z_Float model util.
Definition save_index : store -> exn + @file Z_Float := @save_index Z_Float.
Definition load_index : @file Z_Float -> store -> store * outcome :=
  @load_index Z_Float.
Definition mk_entry (d : option string) (e : option (list Z)) : @entry Z_Float :=
  @Build_entry Z_Float d e.

(** A search that answers with one row too many. *)
Definition search_extra_row (q c : @ndarray Z_Float) (top_k : Z)
    (f : @score_fn Z_Float) : list (list (@hit Z_Float)) :=
  search q c top_k f ++ [[@Build_hit Z_Float 0 0]].

Definition util_extra_row : @Util Z_Float :=
  @Build_Util Z_Float pairwise_dot pairwise_dot search_extra_row (@Mat Z_Float).

End Stub.

(** * Properties *)

(** ** Builtins *)

Lemma len_nonneg {A : Type} (l : list A) : 0 <= len l.
Proof. unfold len; lia. Qed.

Lemma len_app {A : Type} (l1 l2 : list A) : len (l1 ++ l2) = len l1 + len l2.
Proof. unfold len; rewrite length_app; lia. Qed.

Lemma truthy_app_nil {A : Type} (l l' : list A) :
  (if truthy l then l ++ l' else l') = l ++ l'.
Proof. destruct l; reflexivity. Qed.

Lemma truthy_len {A : Type} (l : list A) :
  (if truthy l then len l else 0) = len l.
Proof. destruct l; reflexivity. Qed.

Lemma str_in_true (x : string) (l : list string) : str_in x l = true <-> In x l.
Proof.
  unfold str_in; rewrite existsb_exists; split.
  - intros [y [Hy E]]; apply String.eqb_eq in E; now subst.
  - intros Hx; exists x; split; [assumption | apply String.eqb_refl].
Qed.

Lemma str_in_false (x : string) (l : list string) : str_in x l = false <-> ~ In x l.
Proof.
  rewrite <- str_in_true; destruct (str_in x l); split; congruence.
Qed.

Lemma enumerate_from_keys {A : Type} (l : list A) (i : Z) :
  map fst (enumerate_from i l) = map (fun n => i + Z.of_nat n) (seq 0 (List.length l)).
Proof.
  revert i; induction l as [|x r IH]; intros i; simpl; [reflexivity|].
  f_equal; [lia|].
  rewrite IH, <- seq_shift, map_map.
  apply map_ext; intros n; lia.
Qed.

Lemma enumerate_from_values {A : Type} (l : list A) (i : Z) :
  map snd (enumerate_from i l) = l.
Proof.
  revert i; induction l as [|x r IH]; intros i; simpl; [reflexivity|].
  now rewrite IH.
Qed.

Lemma enumerate_from_length {A : Type} (l : list A) (i : Z) :
  List.length (enumerate_from i l) = List.length l.
Proof.
  revert i; induction l as [|x r IH]; intros i; simpl; [reflexivity|].
  now rewrite IH.
Qed.

Lemma enumerate_from_In {A : Type} (l : list A) (i k : Z) (x : A) :
  In (k, x) (enumerate_from i l) ->
  i <= k < i + len l /\ nth_error l (Z.to_nat (k - i)) = Some x.
Proof.
  revert i; induction l as [|y r IH]; intros i; simpl; [tauto|].
  intros [E | Hin].
  - injection E as <- <-. unfold len; simpl List.length.
    split; [lia|]. now rewrite Z.sub_diag.
  - apply IH in Hin as [Hr Hn]. unfold len in *; simpl List.length.
    split; [lia|].
    replace (Z.to_nat (k - i)) with (S (Z.to_nat (k - (i + 1)))) by lia.
    exact Hn.
Qed.

Lemma enumerate_from_nth {A : Type} (l : list A) (i : Z) (n : nat) (x : A) :
  nth_error l n = Some x -> In (i + Z.of_nat n, x) (enumerate_from i l).
Proof.
  revert i n; induction l as [|y r IH]; intros i n; destruct n; simpl;
    try discriminate.
  - intros [= ->]. left. f_equal; lia.
  - intros Hn. right.
    replace (i + Z.pos (Pos.of_succ_nat n)) with ((i + 1) + Z.of_nat n) by lia.
    now apply IH.
Qed.

Lemma enumerate_from_NoDup {A : Type} (l : list A) (i : Z) :
  NoDup (map fst (enumerate_from i l)).
Proof.
  revert i; induction l as [|x r IH]; intros i; simpl; constructor.
  - rewrite in_map_iff; intros [[k y] [E Hin]]; simpl in E; subst k.
    apply enumerate_from_In in Hin; lia.
  - apply IH.
Qed.

(** ** Dictionaries *)

Section DictFacts.
Context {K V : Type} `{KeyEq K}.
Implicit Types (d : dict K V) (k : K) (v : V).

Lemma getitem_None k d : getitem k d = None <-> ~ In k (keys d).
Proof.
  induction d as [|[k' v'] r IH]; simpl; [tauto|].
  destruct (key_eq_dec k k') as [->|Hne].
  - split; [discriminate | intros Hn; exfalso; apply Hn; now left].
  - rewrite IH; split; [intros Hn [E|Hin]; [congruence | tauto] | tauto].
Qed.

Lemma getitem_Some_In k v d : getitem k d = Some v -> In (k, v) d.
Proof.
  induction d as [|[k' v'] r IH]; simpl; [discriminate|].
  destruct (key_eq_dec k k') as [->|Hne].
  - intros [= ->]; now left.
  - intros Hg; right; auto.
Qed.

Lemma In_getitem_wf k v d : wf d -> In (k, v) d -> getitem k d = Some v.
Proof.
  unfold wf; induction d as [|[k' v'] r IH]; simpl; [tauto|].
  intros Hnd [E|Hin]; inversion Hnd as [|? ? Hnotin Hnd']; subst.
  - injection E as -> ->. now destruct (key_eq_dec k k).
  - destruct (key_eq_dec k k') as [->|Hne]; [|auto].
    exfalso; apply Hnotin. change (In (fst (k', v)) (map fst r)).
    now apply in_map.
Qed.

Lemma setitem_fresh k v d : ~ In k (keys d) -> setitem k v d = d ++ [(k, v)].
Proof.
  induction d as [|[k' v'] r IH]; simpl; [reflexivity|].
  intros Hn; destruct (key_eq_dec k k') as [->|Hne]; [tauto|].
  f_equal; apply IH; tauto.
Qed.

Lemma keys_setitem_present k v d : In k (keys d) -> keys (setitem k v d) = keys d.
Proof.
  induction d as [|[k' v'] r IH]; simpl; [tauto|].
  intros Hin; destruct (key_eq_dec k k') as [->|Hne]; [reflexivity|].
  simpl; f_equal; apply IH; destruct Hin; congruence.
Qed.

Lemma keys_setitem k v d :
  keys (setitem k v d) = if contains k d then keys d else keys d ++ [k].
Proof.
  unfold contains; destruct (getitem k d) eqn:E.
  - apply keys_setitem_present.
    destruct (in_dec key_eq_dec k (keys d)) as [Hin|Hn]; [assumption|].
    apply getitem_None in Hn; congruence.
  - apply getitem_None in E. rewrite setitem_fresh by assumption.
    unfold keys; now rewrite map_app.
Qed.

Lemma In_keys_setitem k k' v d :
  In k (keys (setitem k' v d)) <-> k = k' \/ In k (keys d).
Proof.
  rewrite keys_setitem; unfold contains.
  destruct (getitem k' d) eqn:E.
  - split; [tauto | intros [->|Hin]; [|assumption]].
    destruct (in_dec key_eq_dec k' (keys d)) as [Hin|Hn]; [assumption|].
    apply getitem_None in Hn; congruence.
  - rewrite in_app_iff; simpl; intuition congruence.
Qed.

Lemma getitem_setitem_eq k v d : getitem k (setitem k v d) = Some v.
Proof.
  induction d as [|[k' v'] r IH]; simpl.
  - now destruct (key_eq_dec k k).
  - destruct (key_eq_dec k k') as [->|Hne]; simpl.
    + now destruct (key_eq_dec k' k').
    + now destruct (key_eq_dec k k').
Qed.

Lemma getitem_setitem_neq k k' v d :
  k <> k' -> getitem k (setitem k' v d) = getitem k d.
Proof.
  intros Hne; induction d as [|[k1 v1] r IH]; simpl.
  - now destruct (key_eq_dec k k').
  - destruct (key_eq_dec k' k1) as [->|Hne1]; simpl.
    + now destruct (key_eq_dec k k1).
    + destruct (key_eq_dec k k1); [reflexivity | exact IH].
Qed.

Lemma wf_setitem k v d : wf d -> wf (setitem k v d).
Proof.
  unfold wf; rewrite keys_setitem; unfold contains.
  destruct (getitem k d) eqn:E; [tauto|].
  intros Hnd. apply getitem_None in E.
  apply NoDup_app; [assumption | constructor; [simpl; tauto | constructor] |].
  intros a Ha [<-|[]]; tauto.
Qed.

Lemma length_setitem k v d :
  List.length (setitem k v d) =
  if contains k d then List.length d else S (List.length d).
Proof.
  unfold contains; induction d as [|[k' v'] r IH]; simpl; [reflexivity|].
  destruct (key_eq_dec k k') as [->|Hne]; simpl; [reflexivity|].
  rewrite IH; now destruct (getitem k r).
Qed.

Lemma update_set_all d other : update d other = set_all d other.
Proof. reflexivity. Qed.

Lemma of_pairs_set_all (pairs : list (K * V)) : of_pairs pairs = set_all [] pairs.
Proof. reflexivity. Qed.

Lemma set_all_cons d k v (pairs : list (K * V)) :
  set_all d ((k, v) :: pairs) = set_all (setitem k v d) pairs.
Proof. reflexivity. Qed.

Lemma set_all_fresh (pairs : list (K * V)) d :
  NoDup (map fst pairs) ->
  (forall k, In k (map fst pairs) -> ~ In k (keys d)) ->
  set_all d pairs = d ++ pairs.
Proof.
  revert d; induction pairs as [|[k v] r IH]; intros d Hnd Hdis.
  - now rewrite List.app_nil_r.
  - inversion Hnd as [|? ? Hnotin Hnd']; subst.
    rewrite set_all_cons, setitem_fresh by (apply Hdis; now left).
    rewrite IH; [now rewrite <- List.app_assoc | assumption |].
    intros k' Hk'; unfold keys; rewrite map_app, in_app_iff; simpl.
    intros [Hin|[E|[]]].
    + apply (Hdis k'); [now right | exact Hin].
    + simpl in Hnotin; congruence.
Qed.

Lemma of_pairs_NoDup (pairs : list (K * V)) :
  NoDup (map fst pairs) -> of_pairs pairs = pairs.
Proof.
  intros Hnd; rewrite of_pairs_set_all, set_all_fresh; auto.
Qed.

Lemma wf_set_all (pairs : list (K * V)) d : wf d -> wf (set_all d pairs).
Proof.
  revert d; induction pairs as [|[k v] r IH]; intros d Hwf; [assumption|].
  rewrite set_all_cons; apply IH, wf_setitem, Hwf.
Qed.

Lemma In_keys_set_all (pairs : list (K * V)) d k :
  In k (keys (set_all d pairs)) <-> In k (keys d) \/ In k (map fst pairs).
Proof.
  revert d; induction pairs as [|[k' v'] r IH]; intros d; [simpl; tauto|].
  rewrite set_all_cons, IH, In_keys_setitem; simpl; intuition congruence.
Qed.

Lemma getitem_set_all_other (pairs : list (K * V)) d k :
  ~ In k (map fst pairs) -> getitem k (set_all d pairs) = getitem k d.
Proof.
  revert d; induction pairs as [|[k' v'] r IH]; intros d Hn; [reflexivity|].
  rewrite set_all_cons, IH by (simpl in Hn; tauto).
  apply getitem_setitem_neq; simpl in Hn; intros ->; tauto.
Qed.

Lemma getitem_set_all_In (pairs : list (K * V)) d k v :
  NoDup (map fst pairs) -> In (k, v) pairs ->
  getitem k (set_all d pairs) = Some v.
Proof.
  revert d; induction pairs as [|[k' v'] r IH]; intros d Hnd Hin;
    [destruct Hin|].
  inversion Hnd as [|? ? Hnotin Hnd']; subst.
  rewrite set_all_cons.
  destruct Hin as [E|Hin].
  - injection E as -> ->.
    rewrite (getitem_set_all_other r) by exact Hnotin.
    apply getitem_setitem_eq.
  - apply IH; assumption.
Qed.

Lemma length_set_all_fresh (pairs : list (K * V)) d :
  NoDup (map fst pairs) ->
  (forall k, In k (map fst pairs) -> ~ In k (keys d)) ->
  len (set_all d pairs) = len d + len pairs.
Proof.
  intros Hnd Hdis; rewrite set_all_fresh by assumption. apply len_app.
Qed.

End DictFacts.

(** ** [int(str(i)) == i] *)

Section IntStr.

Local Abbreviation chars := list_ascii_of_string.

Lemma digits_of_uint (d : Decimal.uint) :
  Forall (fun c => is_digit c = true) (chars (NilEmpty.string_of_uint d)).
Proof.
  induction d; simpl; constructor; (reflexivity || assumption).
Qed.

Lemma digit_not_space (c : ascii) : is_digit c = true -> is_space c = false.
Proof.
  destruct c as [[] [] [] [] [] [] [] []]; intros Hd;
    solve [reflexivity | discriminate Hd].
Qed.

Lemma digit_not_sign (c : ascii) :
  is_digit c = true -> c <> "+"%char /\ c <> "-"%char.
Proof. intros Hd; split; intros ->; discriminate Hd. Qed.

Lemma rstrip_no_space (s : string) :
  Forall (fun c => is_space c = false) (chars s) -> rstrip s = s.
Proof.
  induction s as [|c r IH]; simpl; [reflexivity|].
  intros Hall; inversion Hall as [|? ? Hc Hr]; subst.
  rewrite (IH Hr), Hc. now destruct r.
Qed.

Lemma strip_no_space (s : string) :
  Forall (fun c => is_space c = false) (chars s) -> strip s = s.
Proof.
  intros Hall; unfold strip.
  replace (lstrip s) with s; [now apply rstrip_no_space|].
  destruct s as [|c r]; simpl; [reflexivity|].
  inversion Hall as [|? ? Hc Hr]; subst; now rewrite Hc.
Qed.

Lemma digit_groups_digits (s : string) (prev : bool) :
  Forall (fun c => is_digit c = true) (chars s) ->
  s <> EmptyString \/ prev = true ->
  digit_groups prev s = Some s.
Proof.
  revert prev; induction s as [|c r IH]; simpl; intros prev Hall Hne.
  - destruct Hne as [Hne| ->]; [congruence | reflexivity].
  - inversion Hall as [|? ? Hc Hr]; subst.
    rewrite Hc, (IH true Hr) by now right. reflexivity.
Qed.

Lemma parse_digits_of_uint (d : Decimal.uint) :
  d <> Decimal.Nil ->
  parse_digits (NilEmpty.string_of_uint d) = Some (Z.of_uint d).
Proof.
  intros Hd; unfold parse_digits.
  rewrite digit_groups_digits.
  - replace (NilEmpty.string_of_uint d) with (NilZero.string_of_uint d)
      by now destruct d.
    now rewrite NilZero.usu.
  - apply digits_of_uint.
  - left; destruct d; simpl; congruence.
Qed.

Lemma py_int_unsigned (c : ascii) (r : string) :
  c <> "+"%char -> c <> "-"%char ->
  Forall (fun a => is_space a = false) (chars (String c r)) ->
  py_int (String c r) = parse_digits (String c r).
Proof.
  intros Hp Hm Hsp; unfold py_int; rewrite (strip_no_space _ Hsp).
  destruct c as [[] [] [] [] [] [] [] []]; try reflexivity; congruence.
Qed.

Lemma py_int_of_uint (d : Decimal.uint) :
  d <> Decimal.Nil ->
  py_int (NilEmpty.string_of_uint d) = Some (Z.of_uint d).
Proof.
  intros Hd; rewrite <- (parse_digits_of_uint d Hd).
  pose proof (digits_of_uint d) as Hall.
  destruct (NilEmpty.string_of_uint d) as [|c r] eqn:E.
  - destruct d; simpl in E; congruence.
  - simpl in Hall; inversion Hall as [|? ? Hc Hr]; subst.
    apply py_int_unsigned; try (apply digit_not_sign; assumption).
    simpl; constructor; [now apply digit_not_space|].
    eapply Forall_impl; [|exact Hr]. intros a; apply digit_not_space.
Qed.

Lemma py_int_negated (d : Decimal.uint) :
  d <> Decimal.Nil ->
  py_int (String "-" (NilEmpty.string_of_uint d)) = Some (- Z.of_uint d).
Proof.
  intros Hd; unfold py_int; rewrite strip_no_space.
  - now rewrite parse_digits_of_uint.
  - simpl; constructor; [reflexivity|].
    eapply Forall_impl; [|apply digits_of_uint]. intros a; apply digit_not_space.
Qed.

(** Parsing what [str] printed gives the integer back. *)
Lemma py_int_py_str (z : Z) : py_int (py_str z) = Some z.
Proof.
  destruct z as [|p|p]; unfold py_str; simpl Z.to_int.
  - reflexivity.
  - pose proof (DecimalPos.Unsigned.to_uint_nonnil p) as Hn.
    simpl NilZero.string_of_int.
    replace (NilZero.string_of_uint (Pos.to_uint p))
      with (NilEmpty.string_of_uint (Pos.to_uint p))
      by (unfold NilZero.string_of_uint; now destruct (Pos.to_uint p)).
    rewrite py_int_of_uint by assumption.
    unfold Z.of_uint; now rewrite DecimalPos.Unsigned.of_to.
  - pose proof (DecimalPos.Unsigned.to_uint_nonnil p) as Hn.
    simpl NilZero.string_of_int.
    replace (NilZero.string_of_uint (Pos.to_uint p))
      with (NilEmpty.string_of_uint (Pos.to_uint p))
      by (unfold NilZero.string_of_uint; now destruct (Pos.to_uint p)).
    rewrite py_int_negated by assumption.
    unfold Z.of_uint; now rewrite DecimalPos.Unsigned.of_to.
Qed.

Lemma py_str_inj (a b : Z) : py_str a = py_str b -> a = b.
Proof.
  intros E; apply (f_equal py_int) in E.
  rewrite !py_int_py_str in E; congruence.
Qed.

End IntStr.

(** ** [add_corpus] *)

Lemma NoDup_map_fst_filter {A B : Type} (f : A * B -> bool) (l : list (A * B)) :
  NoDup (map fst l) -> NoDup (map fst (filter f l)).
Proof.
  induction l as [|p r IH]; simpl; intros Hnd; [constructor|].
  inversion Hnd as [|? ? Hnotin Hnd']; subst.
  destruct (f p); simpl; [constructor|]; auto.
  intros Hin; apply Hnotin.
  apply in_map_iff in Hin as [q [Eq Hq]]; apply filter_In in Hq as [Hq _].
  apply in_map_iff; now exists q.
Qed.

Lemma map_snd_filter_enumerate {A : Type} (f : A -> bool) (l : list A) (i : Z) :
  map snd (filter (fun p => f (snd p)) (enumerate_from i l)) = filter f l.
Proof.
  revert i; induction l as [|x r IH]; intros i; simpl; [reflexivity|].
  destruct (f x); simpl; now rewrite IH.
Qed.

Lemma count_occ_filter_kept (f : string -> bool) (l : list string) (t : string) :
  f t = true -> count_occ string_dec (filter f l) t = count_occ string_dec l t.
Proof.
  intros Hf; induction l as [|x r IH]; simpl; [reflexivity|].
  destruct (string_dec x t) as [->|Hne].
  - rewrite Hf; simpl. destruct (string_dec t t); [now rewrite IH | congruence].
  - destruct (f x); simpl; [|exact IH].
    destruct (string_dec x t); [congruence | exact IH].
Qed.

Lemma count_occ_two_positions (l : list string) (i j : nat) (t : string) :
  i <> j -> nth_error l i = Some t -> nth_error l j = Some t ->
  (2 <= count_occ string_dec l t)%nat.
Proof.
  revert i j; induction l as [|x r IH]; intros i j Hij Hi Hj.
  - destruct i; discriminate.
  - simpl; destruct i as [|i], j as [|j]; simpl in Hi, Hj.
    + congruence.
    + injection Hi as ->. destruct (string_dec t t); [|congruence].
      apply nth_error_In in Hj.
      apply (count_occ_In string_dec) in Hj. lia.
    + injection Hj as ->. destruct (string_dec t t); [|congruence].
      apply nth_error_In in Hi.
      apply (count_occ_In string_dec) in Hi. lia.
    + assert (Hr : (2 <= count_occ string_dec r t)%nat)
        by (apply (IH i j); [congruence | assumption | assumption]).
      destruct (string_dec x t); lia.
Qed.

Section AddCorpus.
Context `{SentenceModel}.
Implicit Types (self : Similarity) (l : list string).

(** The loop in closed form: the candidates that pass the test, each under
    the key computed from its position in the argument. *)
Lemma add_corpus_loop_list self (start : Z) l (i : Z) (acc : dict Z string) :
  (forall k, In k (keys acc) -> k < start + i) ->
  fold_left (add_corpus_step self true start) (enumerate_from i l) acc =
  acc ++ filter (fun p => is_new self (snd p)) (enumerate_from (start + i) l).
Proof.
  revert i acc; induction l as [|x r IH]; intros i acc Hlt; simpl.
  - now rewrite List.app_nil_r.
  - unfold is_new at 1; simpl snd.
    replace (start + i + 1) with (start + (i + 1)) by lia.
    destruct (negb (str_in x (values (corpus self)))).
    + rewrite setitem_fresh by (intros Hin; apply Hlt in Hin; lia).
      rewrite IH; [now rewrite <- List.app_assoc|].
      intros k; unfold keys; rewrite map_app, in_app_iff; simpl.
      intros [Hin|[<-|[]]]; [apply Hlt in Hin|]; lia.
    + apply IH. intros k Hin; apply Hlt in Hin; lia.
Qed.

Lemma add_corpus_loop_dict self (start : Z) l (i : Z) (acc : dict Z string) :
  (forall k, In k (keys acc) -> k < i) ->
  fold_left (add_corpus_step self false start) (enumerate_from i l) acc =
  acc ++ filter (fun p => is_new self (snd p)) (enumerate_from i l).
Proof.
  revert i acc; induction l as [|x r IH]; intros i acc Hlt; simpl.
  - now rewrite List.app_nil_r.
  - unfold is_new at 1; simpl snd.
    destruct (negb (str_in x (values (corpus self)))).
    + rewrite setitem_fresh by (intros Hin; apply Hlt in Hin; lia).
      rewrite IH; [now rewrite <- List.app_assoc|].
      intros k; unfold keys; rewrite map_app, in_app_iff; simpl.
      intros [Hin|[<-|[]]]; [apply Hlt in Hin|]; lia.
    + apply IH. intros k Hin; apply Hlt in Hin; lia.
Qed.

Lemma add_corpus_new_closed (c : corpus_arg) self :
  add_corpus_new c self =
  filter (fun p => is_new self (snd p))
    (enumerate_from (if isinstance_list c then __len__ self else 0) (iter_corpus c)).
Proof.
  unfold add_corpus_new, enumerate; rewrite truthy_len.
  destruct c as [l|d]; simpl isinstance_list; cbv iota.
  - rewrite add_corpus_loop_list by (intros k []).
    simpl; unfold __len__; repeat f_equal; lia.
  - now rewrite add_corpus_loop_dict by (intros k []).
Qed.

Lemma add_corpus_new_NoDup (c : corpus_arg) self :
  NoDup (keys (add_corpus_new c self)).
Proof.
  rewrite add_corpus_new_closed; unfold keys.
  apply NoDup_map_fst_filter, enumerate_from_NoDup.
Qed.

Lemma add_corpus_new_values (c : corpus_arg) self :
  values (add_corpus_new c self) = filter (is_new self) (iter_corpus c).
Proof.
  rewrite add_corpus_new_closed; unfold values.
  apply (map_snd_filter_enumerate (is_new self)).
Qed.

Lemma add_corpus_corpus (c : corpus_arg) self :
  corpus (add_corpus c self) = update (corpus self) (add_corpus_new c self).
Proof. reflexivity. Qed.

Lemma add_corpus_embeddings (c : corpus_arg) self :
  corpus_embeddings (add_corpus c self) =
  corpus_embeddings self ++ encode_batch (filter (is_new self) (iter_corpus c)).
Proof.
  unfold add_corpus; simpl.
  now rewrite truthy_app_nil, add_corpus_new_values.
Qed.

(** The texts of a mapping argument are never read: only its keys are. *)
Lemma add_corpus_mapping_ignores_texts (d d' : dict string string) self :
  keys d = keys d' -> add_corpus (CorpusDict d) self = add_corpus (CorpusDict d') self.
Proof.
  intros E; unfold add_corpus, add_corpus_new; simpl; now rewrite E.
Qed.

(** A candidate of a list argument that passes the test is stored under
    [len(self.corpus)] plus its position in the argument. *)
Lemma add_corpus_list_id self l (n : nat) (t : string) :
  nth_error l n = Some t -> is_new self t = true ->
  getitem (__len__ self + Z.of_nat n) (corpus (add_corpus (CorpusList l) self)) = Some t.
Proof.
  intros Hn Hnew; rewrite add_corpus_corpus; unfold update, items.
  apply getitem_set_all_In; [apply add_corpus_new_NoDup|].
  rewrite add_corpus_new_closed; simpl.
  apply filter_In; split; [now apply enumerate_from_nth | exact Hnew].
Qed.

(** A candidate whose text is among the stored values adds no entry of
    [new_corpus], whatever the argument. *)
Lemma add_corpus_skips_known (c : corpus_arg) self (k : Z) (t : string) :
  In (k, t) (add_corpus_new c self) -> ~ In t (values (corpus self)).
Proof.
  rewrite add_corpus_new_closed; intros Hin.
  apply filter_In in Hin as [_ Hnew]; unfold is_new in Hnew; simpl in Hnew.
  apply str_in_false. now destruct (str_in t (values (corpus self))).
Qed.

(** One call keeps the store aligned as long as none of the ids it assigns
    is already a key of the corpus. *)
Lemma add_corpus_aligned_fresh_ids (c : corpus_arg) self :
  aligned self ->
  (forall k, In k (keys (add_corpus_new c self)) -> ~ In k (keys (corpus self))) ->
  aligned (add_corpus c self).
Proof.
  unfold aligned; intros Hal Hfresh.
  rewrite add_corpus_corpus, add_corpus_embeddings, len_app.
  unfold update, items.
  rewrite length_set_all_fresh by (assumption || apply add_corpus_new_NoDup).
  rewrite Hal; f_equal; unfold len.
  rewrite encode_batch_length, <- add_corpus_new_values.
  unfold values; now rewrite length_map.
Qed.

(** The first call on an empty store leaves it aligned. *)
Lemma add_corpus_fresh_aligned (c : corpus_arg) : aligned (add_corpus c fresh).
Proof.
  apply add_corpus_aligned_fresh_ids; [reflexivity | intros k _ []].
Qed.

(** Adding only texts that are already stored changes nothing. *)
Lemma add_corpus_all_known l self :
  (forall t, In t l -> In t (values (corpus self))) ->
  add_corpus (CorpusList l) self = self.
Proof.
  intros Hall.
  assert (Hf : filter (is_new self) l = []).
  { induction l as [|x r IH]; simpl; [reflexivity|].
    unfold is_new at 1.
    replace (str_in x (values (corpus self))) with true
      by (symmetry; apply str_in_true, Hall; now left).
    simpl; apply IH; intros t Ht; apply Hall; now right. }
  assert (Hnew : add_corpus_new (CorpusList l) self = []).
  { rewrite add_corpus_new_closed; simpl.
    generalize (__len__ self); intros i.
    revert i; induction l as [|x r IH]; intros i; simpl; [reflexivity|].
    simpl in Hf; destruct (is_new self x); [discriminate|].
    apply IH; [intros t Ht; apply Hall; now right | exact Hf]. }
  destruct self as [c e]; unfold add_corpus; rewrite Hnew; simpl.
  f_equal. rewrite truthy_app_nil.
  pose proof (encode_batch_length []) as Hl.
  destruct (encode_batch []); [apply List.app_nil_r | discriminate].
Qed.

(** C9: deduplication does not apply within one batch.  When a list
    argument holds the text [t] at two positions [i <> j] and [t] is not yet
    among the stored values, both occurrences are stored, under the two
    distinct ids [len + i] and [len + j], and the batch handed to the encoder
    still holds every occurrence of [t] (at least two), one embedding being
    appended for each text of that batch. *)
Theorem add_corpus_batch_keeps_duplicates self l (i j : nat) (t : string) :
  i <> j -> nth_error l i = Some t -> nth_error l j = Some t ->
  is_new self t = true ->
  let self' := add_corpus (CorpusList l) self in
  let batch := filter (is_new self) l in
  getitem (__len__ self + Z.of_nat i) (corpus self') = Some t /\
  getitem (__len__ self + Z.of_nat j) (corpus self') = Some t /\
  __len__ self + Z.of_nat i <> __len__ self + Z.of_nat j /\
  corpus_embeddings self' = corpus_embeddings self ++ encode_batch batch /\
  List.length (encode_batch batch) = List.length batch /\
  count_occ string_dec batch t = count_occ string_dec l t /\
  (2 <= count_occ string_dec l t)%nat.
Proof.
  intros Hij Hi Hj Hnew; cbv zeta.
  repeat split.
  - now apply add_corpus_list_id.
  - now apply add_corpus_list_id.
  - lia.
  - apply (add_corpus_embeddings (CorpusList l)).
  - apply encode_batch_length.
  - now apply count_occ_filter_kept.
  - now apply (count_occ_two_positions l i j).
Qed.

End AddCorpus.

(** ** [similarity], [distance], [most_similar] *)

Section Scoring.
Context `{SentenceModel} `{!Util}.

Lemma contains_registered (name : string) :
  contains name score_functions = true <-> In name registered.
Proof.
  unfold contains, score_functions, registered; simpl.
  destruct (key_eq_dec name "cos_sim") as [->|Hcos]; [intuition|].
  destruct (key_eq_dec name "dot") as [->|Hdot]; [intuition|].
  split; [discriminate | intros [E|[E|[]]]; congruence].
Qed.

Lemma getitem_registered (name : string) :
  In name registered -> exists f, getitem name score_functions = Some f.
Proof.
  intros Hin; apply contains_registered in Hin; unfold contains in Hin.
  destruct (getitem name score_functions) as [f|]; [now exists f | discriminate].
Qed.

Lemma similarity_registered (a b : sentences) (name : string) :
  In name registered ->
  exists f, getitem name score_functions = Some f /\
            similarity a b name = inr (f (_get_vector a) (_get_vector b)).
Proof.
  intros Hin; destruct (getitem_registered name Hin) as [f Hf].
  exists f; split; [assumption|].
  unfold similarity; apply contains_registered in Hin; now rewrite Hin, Hf.
Qed.

Lemma fill_hits_keys (qo : option qid) (hits : list hit) (result result' : query_result) :
  fill_hits qo hits result = inr result' -> keys result' = keys result.
Proof.
  revert result; induction hits as [|h r IH]; intros result; simpl.
  - now intros [= ->].
  - destruct qo as [q|]; [|discriminate].
    destruct (getitem q result) as [inner|] eqn:E; [|discriminate].
    intros Hf; rewrite (IH _ Hf). apply keys_setitem_present.
    destruct (in_dec key_eq_dec q (keys result)) as [Hin|Hn]; [assumption|].
    apply getitem_None in Hn; congruence.
Qed.

Lemma fill_hits_total (q : qid) (hits : list hit) (result : query_result) :
  In q (keys result) -> exists result', fill_hits (Some q) hits result = inr result'.
Proof.
  revert result; induction hits as [|h r IH]; intros result Hin; simpl.
  - now exists result.
  - destruct (getitem q result) as [inner|] eqn:E.
    + apply IH. apply In_keys_setitem; now left.
    + apply getitem_None in E; tauto.
Qed.

Lemma fill_hits_error (qo : option qid) (hits : list hit) (result : query_result) (e : exn) :
  fill_hits qo hits result = inl e -> e = KeyError.
Proof.
  revert result; induction hits as [|h r IH]; intros result; simpl; [discriminate|].
  destruct qo as [q|]; [|congruence].
  destruct (getitem q result); [apply IH | congruence].
Qed.

Lemma fill_result_keys (ids : dict Z qid) (topn : Z) (all_hits : list (Z * list hit))
    (result result' : query_result) :
  fill_result ids topn all_hits result = inr result' -> keys result' = keys result.
Proof.
  revert result; induction all_hits as [|[idx hits] r IH]; intros result; simpl.
  - now intros [= ->].
  - destruct (fill_hits (getitem idx ids) (slice_to hits topn) result)
      as [e|result1] eqn:E; [discriminate|].
    intros Hf; rewrite (IH _ Hf). now apply fill_hits_keys in E.
Qed.

Lemma fill_result_error (ids : dict Z qid) (topn : Z) (all_hits : list (Z * list hit))
    (result : query_result) (e : exn) :
  fill_result ids topn all_hits result = inl e -> e = KeyError.
Proof.
  revert result; induction all_hits as [|[idx hits] r IH]; intros result; simpl;
    [discriminate|].
  destruct (fill_hits (getitem idx ids) (slice_to hits topn) result)
    as [e1|result1] eqn:E.
  - intros [= <-]. now apply fill_hits_error in E.
  - apply IH.
Qed.

Lemma fill_result_total (ids : dict Z qid) (topn : Z) (all_hits : list (Z * list hit))
    (result : query_result) :
  (forall idx hits, In (idx, hits) all_hits ->
     exists q, getitem idx ids = Some q /\ In q (keys result)) ->
  exists result', fill_result ids topn all_hits result = inr result'.
Proof.
  revert result; induction all_hits as [|[idx hits] r IH]; intros result Hall; simpl.
  - now exists result.
  - destruct (Hall idx hits (or_introl eq_refl)) as [q [Hq Hin]].
    rewrite Hq.
    destruct (fill_hits_total q (slice_to hits topn) result Hin) as [result1 E].
    rewrite E. apply IH.
    intros idx' hits' Hin'. rewrite (fill_hits_keys _ _ _ _ E).
    apply (Hall idx' hits'); now right.
Qed.

Lemma getitem_enumerate {A : Type} (l : list A) (i k : Z) (x : A) :
  In (k, x) (enumerate_from i l) -> getitem k (enumerate_from i l) = Some x.
Proof.
  apply In_getitem_wf. apply enumerate_from_NoDup.
Qed.

(** The code's normalisation agrees with the specification's numbering. *)
Lemma normalize_queries_keys (queries : queries_arg) :
  queries_wf queries -> keys (normalize_queries queries) = query_ids queries.
Proof.
  destruct queries as [s|l|d]; simpl; intros Hwf; [reflexivity| |reflexivity].
  assert (Hnd : NoDup (map fst (map (fun p : Z * string => (QInt (fst p), snd p))
                                  (enumerate l)))).
  { rewrite map_map; simpl.
    rewrite <- (map_map fst QInt).
    apply Finite.Injective_map_NoDup; [intros x y [=]; assumption|].
    apply enumerate_from_NoDup. }
  rewrite (of_pairs_NoDup _ Hnd); unfold keys.
  rewrite map_map; simpl. rewrite <- (map_map fst QInt).
  unfold enumerate; rewrite enumerate_from_keys, map_map.
  apply map_ext; intros n; reflexivity.
Qed.

Lemma normalize_queries_wf (queries : queries_arg) :
  queries_wf queries -> wf (normalize_queries queries).
Proof.
  destruct queries as [s|l|d]; simpl; intros Hwf; [| |assumption];
    apply (wf_set_all _ []); constructor.
Qed.

(** C6: [similarity] and [most_similar] raise the configuration error
    ([ValueError]) exactly when the requested name is not one of the two
    registered names; so an unknown name never yields a score. *)
Theorem score_function_error_iff_unregistered (a b : sentences)
    (queries : queries_arg) (topn : Z) (self : Similarity) (name : string) :
  (similarity a b name = inl ValueError <-> ~ In name registered) /\
  (most_similar queries topn name self = inl ValueError <-> ~ In name registered).
Proof.
  split; split.
  - intros E Hin. destruct (similarity_registered a b name Hin) as [f [_ Hs]].
    congruence.
  - intros Hn; unfold similarity.
    destruct (contains name score_functions) eqn:E; [|reflexivity].
    apply contains_registered in E; tauto.
  - intros E Hin; unfold most_similar in E.
    pose proof Hin as Hc; apply contains_registered in Hc; rewrite Hc in E.
    destruct (getitem_registered name Hin) as [f Hf]; rewrite Hf in E.
    simpl in E. apply fill_result_error in E; discriminate.
  - intros Hn; unfold most_similar.
    destruct (contains name score_functions) eqn:E; [|reflexivity].
    apply contains_registered in E; tauto.
Qed.

(** C7: [distance(a, b)] is [1 - similarity(a, b)] under the default score
    function: the call succeeds, its result is the similarity tensor with
    [1 - x] applied to every entry, entry by entry over the same shape. *)
Theorem distance_eq_one_minus_similarity (a b : sentences) :
  exists t,
    similarity a b "cos_sim" = inr t /\
    t = cos_sim (_get_vector a) (_get_vector b) /\
    distance a b = inr (rsub_one t) /\
    forall i j, entry_at (rsub_one t) i j =
                option_map (fun x => float_sub float_one x) (entry_at t i j).
Proof.
  exists (cos_sim (_get_vector a) (_get_vector b)).
  assert (Hs : similarity a b "cos_sim" = inr (cos_sim (_get_vector a) (_get_vector b)))
    by reflexivity.
  split; [exact Hs|]. split; [reflexivity|].
  split; [unfold distance; now rewrite Hs|].
  intros i j; unfold entry_at, rsub_one.
  rewrite nth_error_map.
  destruct (nth_error (cos_sim (_get_vector a) (_get_vector b)) i) as [row|]; simpl;
    [apply nth_error_map | reflexivity].
Qed.

(** C8: the result of [most_similar] is keyed by the query ids themselves:
    the keys of the caller's mapping, [0] for a bare string, [0, 1, ...] for
    a sequence.  Whenever the call returns, the keys of its result are these
    ids in order; and it does return for a registered score function when
    [semantic_search] gives no more hit lists than there are queries. *)
Theorem most_similar_keyed_by_query_ids (queries : queries_arg) (topn : Z)
    (name : string) (self : Similarity) :
  queries_wf queries ->
  (forall result, most_similar queries topn name self = inr result ->
                  keys result = query_ids queries) /\
  (In name registered ->
   (forall f, getitem name score_functions = Some f ->
      (List.length
         (semantic_search
            (_get_vector (Sentences (values (normalize_queries queries))))
            (np_array_float32 (corpus_embeddings self)) topn f)
       <= List.length (query_ids queries))%nat) ->
   exists result, most_similar queries topn name self = inr result /\
                  keys result = query_ids queries).
Proof.
  intros Hwf.
  pose proof (normalize_queries_keys queries Hwf) as Hkeys.
  pose proof (normalize_queries_wf queries Hwf) as Hnd.
  set (qs := normalize_queries queries) in *.
  assert (Hres : of_pairs (map (fun p : qid * string => (fst p, @nil (Z * float))) (items qs))
                 = map (fun p => (fst p, [])) qs).
  { apply of_pairs_NoDup. rewrite map_map; simpl. exact Hnd. }
  assert (Hreskeys : keys (map (fun p : qid * string => (fst p, @nil (Z * float))) qs)
                     = keys qs).
  { unfold keys; rewrite map_map; reflexivity. }
  assert (Hfirst : forall result, most_similar queries topn name self = inr result ->
                                  keys result = query_ids queries).
  { intros result; unfold most_similar; fold qs.
    destruct (negb (contains name score_functions)); [discriminate|].
    destruct (getitem name score_functions) as [f|]; [|discriminate].
    cbv zeta; rewrite Hres; intros Hf.
    apply fill_result_keys in Hf. rewrite Hf. exact (eq_trans Hreskeys Hkeys). }
  split; [exact Hfirst|].
  intros Hin Hrows.
  destruct (getitem_registered name Hin) as [f Hf].
  specialize (Hrows f Hf).
  assert (Hex : exists result, most_similar queries topn name self = inr result).
  { unfold most_similar; fold qs.
    apply contains_registered in Hin; rewrite Hin, Hf; cbv zeta; simpl negb; cbv iota.
    rewrite Hres.
    apply fill_result_total.
    intros idx hits Hidx.
    unfold enumerate in Hidx; apply enumerate_from_In in Hidx as [Hrange Hnth].
    rewrite (of_pairs_NoDup (enumerate (keys qs))) by apply enumerate_from_NoDup.
    assert (Hlt : (Z.to_nat (idx - 0) < List.length (keys qs))%nat).
    { rewrite Hkeys; unfold len in Hrange; lia. }
    apply nth_error_Some in Hlt.
    destruct (nth_error (keys qs) (Z.to_nat (idx - 0))) as [q|] eqn:Eq; [|congruence].
    exists q; split.
    - apply getitem_enumerate.
      replace idx with (0 + Z.of_nat (Z.to_nat (idx - 0))) at 1 by lia.
      now apply enumerate_from_nth.
    - apply nth_error_In in Eq. unfold keys in *. rewrite map_map. exact Eq. }
  destruct Hex as [result Hr]; exists result; split; [exact Hr | now apply Hfirst].
Qed.

End Scoring.

(** ** [save_index], [load_index] *)

Section Snapshots.
Context `{Float}.
Implicit Types (self : Similarity) (f : file).

Lemma load_index_missing self : load_index FileMissing self = (self, LoggedError).
Proof. reflexivity. Qed.

Lemma load_index_not_json self : load_index FileNotJson self = (self, LoggedError).
Proof. reflexivity. Qed.

(** An exception raised by the loop is one the [except] clause lets through. *)
Lemma load_loop_error (entries : list (string * entry)) (c c' : dict Z string)
    (acc : list embedding) (e : exn) :
  load_loop entries c acc = (c', inl e) -> load_index_catches e = false.
Proof.
  revert c acc; induction entries as [|[id cd] r IH]; intros c acc; simpl;
    [discriminate|].
  destruct (doc cd) as [d|]; [|now intros [= <- <-]].
  destruct (py_int id) as [i|]; [|now intros [= <- <-]].
  destruct (doc_emb cd) as [v|]; [apply IH | now intros [= <- <-]].
Qed.

(** A loop that runs to its end has read every member, written each
    document under its parsed id and collected the embeddings in order. *)
Lemma load_loop_returns (entries : list (string * entry)) (c c' : dict Z string)
    (acc embs : list embedding) :
  load_loop entries c acc = (c', inr embs) ->
  exists parsed,
    Forall2 parsed_entry entries parsed /\
    c' = set_all c (map fst parsed) /\
    embs = acc ++ map snd parsed.
Proof.
  revert c acc; induction entries as [|[id cd] r IH]; intros c acc; simpl.
  - intros [= <- <-]; exists []; repeat split; [constructor|].
    now rewrite List.app_nil_r.
  - destruct (doc cd) as [d|] eqn:Ed; [|discriminate].
    destruct (py_int id) as [i|] eqn:Ei; [|discriminate].
    destruct (doc_emb cd) as [v|] eqn:Ev; [|discriminate].
    intros Hl; apply IH in Hl as [parsed [Hp [Hc He]]].
    exists ((i, d, v) :: parsed); repeat split.
    + constructor; [|assumption]. now repeat split.
    + exact Hc.
    + rewrite He, <- List.app_assoc; reflexivity.
Qed.

Lemma load_loop_parsed (entries : list (string * entry))
    (parsed : list (Z * string * embedding)) (c : dict Z string)
    (acc : list embedding) :
  Forall2 parsed_entry entries parsed ->
  load_loop entries c acc = (set_all c (map fst parsed), inr (acc ++ map snd parsed)).
Proof.
  intros Hp; revert c acc; induction Hp as [|[id cd] [[i d] v] r ps Hx Hr IH];
    intros c acc; simpl.
  - now rewrite List.app_nil_r.
  - destruct Hx as [Hi [Hd Hv]]; simpl in Hi, Hd, Hv.
    rewrite Hd, Hi, Hv, IH, <- List.app_assoc; reflexivity.
Qed.

(** How a call of [load_index] can end. *)
Lemma load_index_cases f self self' (o : outcome) :
  load_index f self = (self', o) ->
  ((f = FileMissing \/ f = FileNotJson) /\ o = LoggedError /\ self' = self) \/
  (exists members e c',
      f = FileJson members /\ o = Raised e /\ load_index_catches e = false /\
      load_loop (items (json_load members)) (corpus self) [] = (c', inl e) /\
      self' = {| corpus := c'; corpus_embeddings := corpus_embeddings self |}) \/
  (exists members c' embs,
      f = FileJson members /\ o = Returned /\
      load_loop (items (json_load members)) (corpus self) [] = (c', inr embs) /\
      self' = {| corpus := c'; corpus_embeddings := embs |}) \/
  ((f = FileNotUtf8 \/ f = FileTooDeep \/ f = FileJsonNotObject) /\
   (exists e, o = Raised e) /\ self' = self).
Proof.
  destruct f as [| | | | |members]; unfold load_index; simpl.
  - intros [= <- <-]; left; auto.
  - intros [= <- <-]; do 3 right; eauto.
  - intros [= <- <-]; left; auto.
  - intros [= <- <-]; do 3 right; eauto 6.
  - intros [= <- <-]; do 3 right; eauto 6.
  - destruct (load_loop (items (json_load members)) (corpus self) [])
      as [c' [e|embs]] eqn:El.
    + pose proof (load_loop_error _ _ _ _ _ El) as Hc; rewrite Hc.
      intros [= <- <-]; right; left; exists members, e, c'; auto.
    + intros [= <- <-]; right; right; left; exists members, c', embs; auto.
Qed.

(** C4 (amended): a load that fails because the file cannot be opened
    ([IOError]) or because its text is not JSON ([JSONDecodeError]) is
    logged, lets no exception out and leaves the store as it was; these two
    are the only failures that are caught: bytes that are not UTF-8, JSON
    nested too deep, a JSON value that is not an object and a bad member all
    make an exception leave the call.  Whatever the failure, the embedding
    list is left as it was, and so is the whole store when the failure comes
    before the members are read. *)
Theorem load_index_failure f self self' (o : outcome) :
  load_index f self = (self', o) -> o <> Returned ->
  corpus_embeddings self' = corpus_embeddings self /\
  ((f = FileMissing \/ f = FileNotJson) <-> o = LoggedError) /\
  (o = LoggedError -> self' = self) /\
  (f = FileNotUtf8 \/ f = FileTooDeep \/ f = FileJsonNotObject ->
   self' = self /\ exists e, o = Raised e) /\
  ((forall members, f <> FileJson members) -> self' = self).
Proof.
  intros Hl Hfail; apply load_index_cases in Hl
    as [[Hf [-> ->]] | [(members & e & c' & -> & -> & Hc & _ & ->)
                       | [(members & c' & embs & -> & -> & _)
                         | (Hf & [e ->] & ->)]]].
  - split; [reflexivity|]. split; [tauto|]. split; [reflexivity|].
    split; [|reflexivity].
    intros [E|[E|E]]; destruct Hf; congruence.
  - split; [reflexivity|].
    split; [split; [intros [E|E]; discriminate E | discriminate]|].
    split; [discriminate|].
    split; [intros [E|[E|E]]; discriminate E|].
    intros Hn; exfalso; exact (Hn members eq_refl).
  - congruence.
  - split; [reflexivity|].
    split; [split; [|discriminate]|].
    { intros [E|E]; destruct Hf as [Hf|[Hf|Hf]]; congruence. }
    split; [discriminate|].
    split; [intros _; split; [reflexivity | now exists e] | reflexivity].
Qed.

(** C10: a load that returns has merged the members of the file into the
    mapping that was there (ids the file does not name keep their document,
    no id is lost) and has replaced the embedding list by the embeddings of
    the file alone; so a store that was aligned can end with more documents
    than embeddings. *)
Theorem load_index_merges_corpus_replaces_embeddings f self self' :
  load_index f self = (self', Returned) ->
  (exists members parsed,
      f = FileJson members /\
      Forall2 parsed_entry (json_load members) parsed /\
      corpus self' = update (corpus self) (map fst parsed) /\
      corpus_embeddings self' = map snd parsed /\
      (forall id, ~ In id (map fst (map fst parsed)) ->
                  getitem id (corpus self') = getitem id (corpus self)) /\
      (forall id, In id (keys (corpus self)) -> In id (keys (corpus self')))) /\
  (exists self0 f0 self1,
      aligned self0 /\ load_index f0 self0 = (self1, Returned) /\
      len (corpus self1) > len (corpus_embeddings self1)).
Proof.
  intros Hl; split.
  - apply load_index_cases in Hl
      as [[_ [E _]] | [(members & e & c' & _ & E & _)
                      | [(members & c' & embs & -> & _ & Hloop & ->)
                        | (_ & [e E] & _)]]];
      try discriminate E.
    apply load_loop_returns in Hloop as [parsed [Hp [-> ->]]].
    exists members, parsed; simpl; repeat split; auto.
    + intros id Hn. now apply getitem_set_all_other.
    + intros id Hin. apply In_keys_set_all; now left.
  - exists {| corpus := [(0, "a"); (1, "b")];
              corpus_embeddings := [[float_one]; [float_one]] |},
           (FileJson [("5", full_entry "c" [float_one])]),
           {| corpus := [(0, "a"); (1, "b"); (5, "c")];
              corpus_embeddings := [[float_one]] |}.
    repeat split.
Qed.

(** *** Round trip *)

Lemma corpus_emb_of_closed (c : dict Z string)
    (zs : list (Z * string * embedding)) (acc : dict Z entry) :
  (forall z, In z zs -> getitem (fst (fst z)) c = Some (snd (fst z))) ->
  NoDup (map fst (map fst zs)) ->
  (forall k, In k (map fst (map fst zs)) -> ~ In k (keys acc)) ->
  corpus_emb_of c (map (fun z => (fst (fst z), snd z)) zs) acc =
  inr (acc ++ map (fun z => (fst (fst z), full_entry (snd (fst z)) (snd z))) zs).
Proof.
  revert acc; induction zs as [|[[k d] v] r IH]; intros acc Hget Hnd Hdis; simpl.
  - now rewrite List.app_nil_r.
  - pose proof (Hget (k, d, v) (or_introl eq_refl)) as Hk; simpl in Hk.
    rewrite Hk.
    inversion Hnd as [|? ? Hnotin Hnd']; subst.
    rewrite setitem_fresh by (apply Hdis; now left).
    rewrite IH; [now rewrite <- List.app_assoc | | assumption |].
    + intros z Hz; apply Hget; now right.
    + intros k' Hk'; unfold keys; rewrite map_app, in_app_iff; simpl.
      intros [Hin|[<-|[]]]; [|exact (Hnotin Hk')].
      apply (Hdis k'); [now right | exact Hin].
Qed.

Lemma load_loop_dumped (zs : list (Z * string * embedding)) (c : dict Z string)
    (acc : list embedding) :
  load_loop
    (map (fun z => (py_str (fst (fst z)), full_entry (snd (fst z)) (snd z))) zs)
    c acc =
  (set_all c (map fst zs), inr (acc ++ map snd zs)).
Proof.
  apply load_loop_parsed.
  induction zs as [|[[k d] v] r IH]; simpl; constructor; [|exact IH].
  repeat split; simpl. apply py_int_py_str.
Qed.

Lemma combine_keys {A B C : Type} (l : list (A * B)) (l' : list C) :
  combine (map fst l) l' = map (fun z => (fst (fst z), snd z)) (combine l l').
Proof.
  revert l'; induction l as [|[a b] r IH]; intros [|x l']; simpl;
    try reflexivity.
  now rewrite IH.
Qed.

Lemma combine_fst_In {A B : Type} (l : list A) (l' : list B) (z : A * B) :
  In z (combine l l') -> In (fst z) l.
Proof. destruct z as [a b]; apply in_combine_l. Qed.

Lemma NoDup_combine_fst {A B C : Type} (l : list (A * B)) (l' : list C) :
  NoDup (map fst l) -> NoDup (map fst (map fst (combine l l'))).
Proof.
  revert l'; induction l as [|[a b] r IH]; intros [|x l'] Hnd; simpl;
    try constructor.
  - inversion Hnd as [|? ? Hnotin Hnd']; subst.
    intros Hin; apply Hnotin.
    apply in_map_iff in Hin as [p [Ep Hp]].
    apply in_map_iff in Hp as [z [Ez Hz]]; subst p.
    apply combine_fst_In in Hz. apply in_map_iff; now exists (fst z).
  - inversion Hnd; subst; now apply IH.
Qed.

(** What a save followed by a load into a fresh store gives for any store:
    the documents and the embeddings that [zip] paired, no more. *)
Lemma save_load_zip self :
  wf (corpus self) ->
  exists f,
    save_index self = inr f /\
    load_index f fresh =
    ({| corpus := map fst (combine (corpus self) (corpus_embeddings self));
        corpus_embeddings := map snd (combine (corpus self) (corpus_embeddings self)) |},
     Returned).
Proof.
  intros Hwf; set (zs := combine (corpus self) (corpus_embeddings self)).
  assert (Hnd : NoDup (map fst (map fst zs))) by now apply NoDup_combine_fst.
  unfold save_index; unfold keys at 1; rewrite combine_keys; fold zs.
  rewrite corpus_emb_of_closed; [| |assumption|intros k _ []].
  - eexists; split; [reflexivity|].
    unfold load_index, load_index_try, json_load, json_dump, items.
    cbn [app]; rewrite map_map; cbn [fst snd].
    rewrite of_pairs_NoDup.
    + unfold items; rewrite load_loop_dumped; simpl.
      rewrite (set_all_fresh (map fst zs) []); [reflexivity | assumption|].
      intros k _ [].
    + rewrite map_map; simpl.
      rewrite <- (map_map (fun z => fst (fst z)) py_str).
      apply Finite.Injective_map_NoDup; [intros a b; apply py_str_inj|].
      now rewrite <- (map_map fst fst).
  - intros z Hz. apply In_getitem_wf; [assumption|].
    apply combine_fst_In in Hz. now destruct z as [[k d] v].
Qed.

(** C5 (amended): for every store with as many embeddings as documents,
    [save_index] followed by [load_index] into a fresh store returns and
    gives back the same id-to-document mapping, ids parsed back as integers,
    and the same embedding list. *)
Theorem save_load_roundtrip self :
  wf (corpus self) -> aligned self ->
  exists f, save_index self = inr f /\ load_index f fresh = (self, Returned).
Proof.
  intros Hwf Hal; destruct (save_load_zip self Hwf) as [f [Hs Hl]].
  exists f; split; [assumption|]. rewrite Hl; f_equal.
  destruct self as [c e]; unfold aligned, len in Hal; simpl in *.
  assert (Hlen : List.length c = List.length e) by lia.
  f_equal.
  - clear -Hlen; revert e Hlen; induction c as [|p r IH]; intros [|x e] Hlen;
      simpl in *; try discriminate; [reflexivity|].
    f_equal; apply IH; lia.
  - clear -Hlen; revert e Hlen; induction c as [|p r IH]; intros [|x e] Hlen;
      simpl in *; try discriminate; [reflexivity|].
    f_equal; apply IH; lia.
Qed.

End Snapshots.

(** ** The class on concrete inputs *)

Section Runs.

Local Abbreviation entry_of d e := (Stub.mk_entry (Some d) (Some e)).

Ltac nodup_keys :=
  unfold wf, queries_wf; vm_compute;
  repeat (constructor; [simpl; intuition discriminate|]); constructor.

(** C1: a mapping argument is iterated by [enumerate], which yields its keys:
    [add_corpus({"q7": "text"})] on an empty store files the key ["q7"] as
    the document of id [0], embeds that key, and stores the text nowhere. *)
Theorem add_corpus_mapping_stores_key_as_document :
  let self' := Stub.add_corpus (CorpusDict [("q7", "text")]) Stub.empty in
  corpus self' = [(0, "q7")] /\
  ~ In "text" (values (corpus self')) /\
  corpus_embeddings self' = [Stub.embed "q7"].
Proof.
  cbv zeta; repeat split. vm_compute; intuition discriminate.
Qed.

(** C2: three list calls, the second of which skips a known text, end with
    two documents and three embeddings: the id [2] given to ["b"] behind the
    skipped candidate is the id the next call starts at, so ["c"] overwrites
    ["b"] while its embedding is appended. *)
Theorem add_corpus_sequence_breaks_alignment :
  let s1 := Stub.add_corpus (CorpusList ["a"]) Stub.empty in
  let s2 := Stub.add_corpus (CorpusList ["a"; "b"]) s1 in
  let s3 := Stub.add_corpus (CorpusList ["c"]) s2 in
  aligned s1 /\ aligned s2 /\
  corpus s2 = [(0, "a"); (2, "b")] /\
  corpus s3 = [(0, "a"); (2, "c")] /\
  len (corpus s3) = 2 /\ len (corpus_embeddings s3) = 3 /\
  ~ aligned s3.
Proof.
  cbv zeta; repeat split. vm_compute; discriminate.
Qed.

(** C3: a skipped candidate consumes an id.  With ["a"] stored under [0],
    [add_corpus(["a", "b"])] skips ["a"] and files ["b"] under [2], leaving
    [1] unused; the next new text then lands on [2] again and the size does
    not grow. *)
Theorem add_corpus_skipped_candidate_consumes_id :
  let s1 := Stub.add_corpus (CorpusList ["a"]) Stub.empty in
  let s2 := Stub.add_corpus (CorpusList ["a"; "b"]) s1 in
  let s3 := Stub.add_corpus (CorpusList ["c"]) s2 in
  __len__ s1 = 1 /\
  getitem 1 (corpus s2) = None /\
  getitem 2 (corpus s2) = Some "b" /\
  is_new s2 "c" = true /\
  __len__ s3 = __len__ s2.
Proof.
  cbv zeta; repeat split.
Qed.

(** The claim of C4 fails on a file that is JSON but names a member ["x"]:
    [int("x")] raises [ValueError], which the [except] clause does not
    catch, after the member ["7"] has been written to the corpus. *)
Lemma load_index_failure_counterexample :
  let s := Stub.add_corpus (CorpusList ["a"; "b"]) Stub.empty in
  let f := FileJson [("7", entry_of "c" [1; 1]); ("x", entry_of "d" [1; 1])] in
  exists s',
    Stub.load_index f s = (s', Raised ValueError) /\
    corpus s' = [(0, "a"); (1, "b"); (7, "c")] /\
    corpus s' <> corpus s.
Proof.
  cbv zeta; eexists; split; [vm_compute; reflexivity|].
  split; [reflexivity | discriminate].
Qed.

Lemma load_index_failure_witness :
  let s := Stub.add_corpus (CorpusList ["a"; "b"]) Stub.empty in
  let f := FileJson [("7", entry_of "c" [1; 1]); ("x", entry_of "d" [1; 1])] in
  let s' := Stub.mk [(0, "a"); (1, "b"); (7, "c")] [[1; 1]; [1; 1]] in
  Stub.load_index f s = (s', Raised ValueError) /\
  corpus_embeddings s' = corpus_embeddings s /\
  Stub.load_index FileMissing s = (s, LoggedError) /\
  Stub.load_index FileNotUtf8 s = (s, Raised UnicodeDecodeError).
Proof.
  cbv zeta; split; [reflexivity|]. split; [|split; reflexivity].
  refine (proj1 (@load_index_failure Stub.Z_Float
                   (FileJson [("7", entry_of "c" [1; 1]); ("x", entry_of "d" [1; 1])])
                   (Stub.add_corpus (CorpusList ["a"; "b"]) Stub.empty)
                   (Stub.mk [(0, "a"); (1, "b"); (7, "c")] [[1; 1]; [1; 1]])
                   (Raised ValueError) _ _)).
  - reflexivity.
  - discriminate.
Defined.

(** The claim of C5 fails on a store with more documents than embeddings,
    here the one a load into a non-empty store leaves: [zip] pairs one id
    with the one embedding, and only that document comes back. *)
Lemma save_load_roundtrip_counterexample :
  let s0 := Stub.add_corpus (CorpusList ["a"; "b"]) Stub.empty in
  let s := fst (Stub.load_index (FileJson [("5", entry_of "c" [3; 1])]) s0) in
  wf (corpus s) /\
  exists f s',
    Stub.save_index s = inr f /\
    Stub.load_index f Stub.empty = (s', Returned) /\
    corpus s = [(0, "a"); (1, "b"); (5, "c")] /\
    corpus s' = [(0, "a")] /\
    s' <> s.
Proof.
  cbv zeta; split; [nodup_keys|].
  do 2 eexists; split; [vm_compute; reflexivity|].
  split; [vm_compute; reflexivity|].
  repeat split. discriminate.
Qed.

Lemma save_load_roundtrip_witness :
  let s := Stub.add_corpus (CorpusList ["a"; "bb"]) Stub.empty in
  exists f, Stub.save_index s = inr f /\ Stub.load_index f Stub.empty = (s, Returned).
Proof.
  cbv zeta; apply (@save_load_roundtrip Stub.Z_Float).
  - nodup_keys.
  - reflexivity.
Defined.

Lemma most_similar_keyed_by_query_ids_witness :
  let s := Stub.add_corpus (CorpusList ["a"; "bb"]) Stub.empty in
  exists result,
    Stub.most_similar (QueriesDict [(QStr "q7", "text")]) 10 "cos_sim" s = inr result /\
    keys result = [QStr "q7"].
Proof.
  cbv zeta.
  refine (proj2 (@most_similar_keyed_by_query_ids Stub.Z_Float Stub.model Stub.util
                   (QueriesDict [(QStr "q7", "text")]) 10 "cos_sim" _ _) _ _).
  - nodup_keys.
  - simpl; auto.
  - intros f [= <-]; vm_compute; lia.
Defined.

Lemma add_corpus_batch_keeps_duplicates_witness :
  let self' := Stub.add_corpus (CorpusList ["x"; "x"]) Stub.empty in
  getitem 0 (corpus self') = Some "x" /\
  getitem 1 (corpus self') = Some "x" /\
  List.length (corpus_embeddings self') = 2%nat.
Proof.
  cbv zeta.
  destruct (@add_corpus_batch_keeps_duplicates Stub.Z_Float Stub.model Stub.empty
              ["x"; "x"] 0%nat 1%nat "x"
              ltac:(discriminate) eq_refl eq_refl eq_refl)
    as (H0 & H1 & _ & He & _).
  split; [exact H0|]. split; [exact H1|]. reflexivity.
Defined.

Lemma load_index_merges_witness :
  let s := Stub.add_corpus (CorpusList ["a"; "b"]) Stub.empty in
  let f := FileJson [("5", entry_of "c" [3; 1])] in
  let s' := Stub.mk [(0, "a"); (1, "b"); (5, "c")] [[3; 1]] in
  Stub.load_index f s = (s', Returned) /\
  (forall id, In id (keys (corpus s)) -> In id (keys (corpus s'))) /\
  len (corpus s') > len (corpus_embeddings s').
Proof.
  cbv zeta; split; [reflexivity|]. split; [|reflexivity].
  destruct (@load_index_merges_corpus_replaces_embeddings Stub.Z_Float
              (FileJson [("5", entry_of "c" [3; 1])])
              (Stub.add_corpus (CorpusList ["a"; "b"]) Stub.empty)
              (Stub.mk [(0, "a"); (1, "b"); (5, "c")] [[3; 1]]) eq_refl)
    as [(members & parsed & _ & _ & _ & _ & _ & Hin) _].
  exact Hin.
Defined.

End Runs.

(** * Further properties *)

(** ** More on dictionaries *)

Section DictBounds.
Context {K V : Type} `{KeyEq K}.
Implicit Types (d : dict K V) (k : K) (v : V).

Lemma length_set_all_bounds (pairs : list (K * V)) d :
  (List.length d <= List.length (set_all d pairs) <= List.length d + List.length pairs)%nat.
Proof.
  revert d; induction pairs as [|[k v] r IH]; intros d; [simpl; lia|].
  rewrite set_all_cons; specialize (IH (setitem k v d)).
  rewrite length_setitem in IH; simpl List.length.
  destruct (contains k d); lia.
Qed.

Lemma In_values_getitem d v : In v (values d) -> exists k, In (k, v) d.
Proof.
  unfold values; rewrite in_map_iff; intros [[k v'] [E Hin]]; simpl in E; subst.
  now exists k.
Qed.

Lemma getitem_In_values k v d : getitem k d = Some v -> In v (values d).
Proof.
  intros Hg; apply getitem_Some_In in Hg.
  unfold values; apply in_map_iff; now exists (k, v).
Qed.

End DictBounds.

(** ** More on [add_corpus] and [__init__] *)

Lemma dense_keys_range (l : list Z) (n : nat) (k : Z) :
  l = map Z.of_nat (seq 0 n) -> In k l -> 0 <= k < Z.of_nat n.
Proof.
  intros -> Hin; apply in_map_iff in Hin as [m [<- Hm]].
  apply in_seq in Hm; lia.
Qed.

Lemma NoDup_positions (n : nat) : NoDup (map Z.of_nat (seq 0 n)).
Proof.
  apply Finite.Injective_map_NoDup; [intros a b; apply Nat2Z.inj | apply seq_NoDup].
Qed.

Lemma positions_from (a b : nat) :
  map Z.of_nat (seq a b) = map (fun n => Z.of_nat a + Z.of_nat n) (seq 0 b).
Proof.
  revert a; induction b as [|b IH]; intros a; simpl; [reflexivity|].
  f_equal; [lia|].
  rewrite IH, <- seq_shift, map_map. apply map_ext; intros n; lia.
Qed.

Lemma filter_all_true {A : Type} (f : A -> bool) (l : list A) :
  (forall x, In x l -> f x = true) -> filter f l = l.
Proof.
  induction l as [|x r IH]; simpl; intros Hall; [reflexivity|].
  rewrite (Hall x) by now left. f_equal; apply IH; intros y Hy; apply Hall; now right.
Qed.

Section AddCorpusMore.
Context `{SentenceModel}.
Implicit Types (self : Similarity) (l : list string) (c : corpus_arg).

Lemma dense_wf self : dense self -> wf (corpus self).
Proof. unfold dense, wf; intros ->; apply NoDup_positions. Qed.

Lemma dense_key_lt self (k : Z) :
  dense self -> In k (keys (corpus self)) -> 0 <= k < __len__ self.
Proof. intros Hd Hin; exact (dense_keys_range _ _ _ Hd Hin). Qed.

Lemma add_corpus_new_list_key_ge l self (k : Z) :
  In k (keys (add_corpus_new (CorpusList l) self)) -> __len__ self <= k.
Proof.
  rewrite add_corpus_new_closed; simpl; unfold keys; rewrite in_map_iff.
  intros [[k' t] [E Hin]]; simpl in E; subst k'.
  apply filter_In in Hin as [Hin _]; apply enumerate_from_In in Hin; lia.
Qed.

Lemma dense_list_ids_fresh l self (k : Z) :
  dense self -> In k (keys (add_corpus_new (CorpusList l) self)) ->
  ~ In k (keys (corpus self)).
Proof.
  intros Hd Hk Hin; apply add_corpus_new_list_key_ge in Hk.
  apply (dense_key_lt self k Hd) in Hin; lia.
Qed.

Lemma is_new_fresh (t : string) : is_new fresh t = true.
Proof. reflexivity. Qed.

(** X1: [add_corpus] only appends to the embedding list: the old embeddings
    stay in place, and what follows them is the output of one encoder call on
    the candidates that passed the test, in the order of the argument; these
    are the texts filed in [new_corpus]. *)
Theorem add_corpus_appends_embeddings c self :
  let batch := filter (is_new self) (iter_corpus c) in
  corpus_embeddings (add_corpus c self) = corpus_embeddings self ++ encode_batch batch /\
  len (corpus_embeddings (add_corpus c self)) = len (corpus_embeddings self) + len batch /\
  values (add_corpus_new c self) = batch /\
  (forall t, In t batch <-> In t (iter_corpus c) /\ ~ In t (values (corpus self))).
Proof.
  cbv zeta; split; [|split; [|split]].
  - apply add_corpus_embeddings.
  - rewrite add_corpus_embeddings, len_app; unfold len.
    now rewrite encode_batch_length.
  - apply add_corpus_new_values.
  - intros t; rewrite filter_In, <- str_in_false; unfold is_new.
    destruct (str_in t (values (corpus self))); simpl; intuition congruence.
Qed.

(** X2: for a list argument, [new_corpus] holds exactly the candidates that
    passed the test, each under [len(self.corpus)] plus its position in the
    argument; each of them is what the corpus holds under that id after the
    call. *)
Theorem add_corpus_list_new_entries l self (k : Z) (t : string) :
  (In (k, t) (add_corpus_new (CorpusList l) self) <->
   exists n : nat, k = __len__ self + Z.of_nat n /\ nth_error l n = Some t /\
                   is_new self t = true) /\
  (In (k, t) (add_corpus_new (CorpusList l) self) ->
   getitem k (corpus (add_corpus (CorpusList l) self)) = Some t).
Proof.
  split; [split|].
  - rewrite add_corpus_new_closed; simpl; intros Hin.
    apply filter_In in Hin as [Hin Hnew]; simpl in Hnew.
    apply enumerate_from_In in Hin as [Hr Hn].
    exists (Z.to_nat (k - __len__ self)); repeat split; [lia | assumption | assumption].
  - intros [n [-> [Hn Hnew]]]; rewrite add_corpus_new_closed; simpl.
    apply filter_In; split; [now apply enumerate_from_nth | exact Hnew].
  - intros Hin; rewrite add_corpus_corpus; unfold update, items.
    apply getitem_set_all_In; [apply add_corpus_new_NoDup | exact Hin].
Qed.

(** X3: [add_corpus] never removes an id and never touches the document of
    an id it does not assign in this call; the size never shrinks and grows
    by at most the number of candidates. *)
Theorem add_corpus_keeps_ids c self :
  (forall id, In id (keys (corpus self)) -> In id (keys (corpus (add_corpus c self)))) /\
  (forall id, ~ In id (keys (add_corpus_new c self)) ->
              getitem id (corpus (add_corpus c self)) = getitem id (corpus self)) /\
  __len__ self <= __len__ (add_corpus c self) <= __len__ self + len (iter_corpus c).
Proof.
  unfold __len__; rewrite add_corpus_corpus; unfold update, items; repeat split.
  - intros id Hin; apply In_keys_set_all; now left.
  - intros id Hn; now apply getitem_set_all_other.
  - unfold len.
    pose proof (length_set_all_bounds (add_corpus_new c self) (corpus self)); lia.
  - unfold len.
    pose proof (length_set_all_bounds (add_corpus_new c self) (corpus self)) as Hb.
    assert (Hn : (List.length (add_corpus_new c self) <= List.length (iter_corpus c))%nat).
    { rewrite <- (length_map snd (add_corpus_new c self)).
      change (map snd (add_corpus_new c self)) with (values (add_corpus_new c self)).
      rewrite add_corpus_new_values; apply filter_length_le. }
    lia.
Qed.

(** X4: on a store whose ids are the positions [0 .. len-1], a list argument
    never lands on an existing id, so a store that has as many embeddings as
    documents still has after the call. *)
Theorem add_corpus_list_dense_aligned l self :
  dense self -> aligned self -> aligned (add_corpus (CorpusList l) self).
Proof.
  intros Hd Hal; apply add_corpus_aligned_fresh_ids; [assumption|].
  intros k Hk; exact (dense_list_ids_fresh l self k Hd Hk).
Qed.

(** X5: on such a store, a list of texts none of which is stored yet simply
    extends it: the documents are appended under the next ids in order, the
    whole list is encoded, and the ids are again the positions. *)
Theorem add_corpus_all_new_extends l self :
  dense self -> (forall t, In t l -> is_new self t = true) ->
  let self' := add_corpus (CorpusList l) self in
  corpus self' = corpus self ++ enumerate_from (__len__ self) l /\
  corpus_embeddings self' = corpus_embeddings self ++ encode_batch l /\
  dense self'.
Proof.
  intros Hd Hall; cbv zeta.
  assert (Hnew : add_corpus_new (CorpusList l) self = enumerate_from (__len__ self) l).
  { rewrite add_corpus_new_closed; simpl. apply filter_all_true.
    intros [k t] Hin; simpl. apply Hall.
    apply enumerate_from_In in Hin as [_ Hn]. eapply nth_error_In; eassumption. }
  assert (Hc : corpus (add_corpus (CorpusList l) self)
               = corpus self ++ enumerate_from (__len__ self) l).
  { rewrite add_corpus_corpus; unfold update, items; rewrite Hnew.
    apply set_all_fresh; [apply enumerate_from_NoDup|].
    intros k Hk; apply (dense_list_ids_fresh l self k Hd).
    unfold keys; now rewrite Hnew. }
  repeat split.
  - exact Hc.
  - rewrite add_corpus_embeddings; simpl iter_corpus.
    now rewrite (filter_all_true _ _ Hall).
  - unfold dense; rewrite Hc; unfold keys.
    rewrite map_app, length_app, enumerate_from_keys, enumerate_from_length.
    fold (keys (corpus self)); rewrite Hd at 1.
    rewrite seq_app, map_app; f_equal.
    rewrite positions_from; apply map_ext; intros n; unfold __len__, len; lia.
Qed.

(** X6: the store [__init__] builds from a corpus argument holds every
    element of a list (every key of a mapping), repeated ones included, under
    the ids [0, 1, ...] in order, with one embedding each. *)
Theorem init_corpus_closed_form c :
  corpus (__init__ (Some c)) = enumerate (iter_corpus c) /\
  corpus_embeddings (__init__ (Some c)) = encode_batch (iter_corpus c) /\
  aligned (__init__ (Some c)) /\
  dense (__init__ (Some c)).
Proof.
  assert (Hnew : add_corpus_new c fresh = enumerate (iter_corpus c)).
  { rewrite add_corpus_new_closed.
    replace (if isinstance_list c then __len__ fresh else 0) with 0
      by now destruct (isinstance_list c).
    apply filter_all_true; intros p _; apply is_new_fresh. }
  assert (Hc : corpus (__init__ (Some c)) = enumerate (iter_corpus c)).
  { unfold __init__; rewrite add_corpus_corpus; unfold update, items; rewrite Hnew.
    apply (set_all_fresh _ []); [apply enumerate_from_NoDup | intros k _ []]. }
  repeat split.
  - exact Hc.
  - unfold __init__; rewrite add_corpus_embeddings; simpl.
    f_equal; apply filter_all_true; intros t _; apply is_new_fresh.
  - apply add_corpus_fresh_aligned.
  - unfold dense; rewrite Hc; unfold keys, enumerate.
    rewrite enumerate_from_keys, enumerate_from_length.
    apply map_ext; intros n; lia.
Qed.

(** X7: on a store whose ids are the positions, adding the same list a
    second time changes nothing: no document, no id, no embedding. *)
Theorem add_corpus_list_twice l self :
  dense self ->
  add_corpus (CorpusList l) (add_corpus (CorpusList l) self)
  = add_corpus (CorpusList l) self.
Proof.
  intros Hd; apply add_corpus_all_known; intros t Ht.
  destruct (is_new self t) eqn:Enew.
  - apply In_nth_error in Ht as [n Hn].
    apply (getitem_In_values (__len__ self + Z.of_nat n)).
    now apply add_corpus_list_id.
  - assert (Hin : In t (values (corpus self))).
    { unfold is_new in Enew; apply str_in_true.
      now destruct (str_in t (values (corpus self))). }
    apply In_values_getitem in Hin as [k Hk].
    apply (getitem_In_values k).
    rewrite add_corpus_corpus; unfold update, items.
    rewrite getitem_set_all_other.
    + apply In_getitem_wf; [now apply dense_wf | exact Hk].
    + intros Hnew; apply (dense_list_ids_fresh l self k Hd Hnew).
      unfold keys; apply in_map_iff; now exists (k, t).
Qed.

End AddCorpusMore.

(** ** More on [most_similar] *)

Section MostSimilarMore.
Context `{SentenceModel} `{!Util}.

Lemma fill_hits_none (hits : list hit) (result result' : query_result) :
  fill_hits None hits result = inr result' -> hits = [] /\ result' = result.
Proof. destruct hits; simpl; [now intros [= ->] | discriminate]. Qed.

(** What the inner loop leaves: the hits written in order into the entry of
    its query, the other entries as they were. *)
Lemma fill_hits_entries (q : qid) (hits : list hit) (result result' : query_result) :
  fill_hits (Some q) hits result = inr result' ->
  getitem q result' =
    option_map (fun inner => set_all inner (map hit_pair hits)) (getitem q result) /\
  (forall q', q' <> q -> getitem q' result' = getitem q' result).
Proof.
  revert result; induction hits as [|h r IH]; intros result; simpl.
  - intros [= <-]; split; [now destruct (getitem q result) | reflexivity].
  - destruct (getitem q result) as [inner|] eqn:E; [|discriminate].
    intros Hf; apply IH in Hf as [Hq Hother]; split.
    + rewrite Hq, getitem_setitem_eq; reflexivity.
    + intros q' Hne; rewrite (Hother q' Hne). now apply getitem_setitem_neq.
Qed.

Lemma fill_hits_fails (q : qid) (hits : list hit) (result : query_result) (e : exn) :
  fill_hits (Some q) hits result = inl e -> ~ In q (keys result).
Proof.
  intros Hf Hin; destruct (fill_hits_total q hits result Hin) as [r Hr]; congruence.
Qed.

(** The row of [all_hits] that belongs to position [idx], when the rows are
    numbered from [i]. *)
Lemma fill_result_entries (ids : dict Z qid) (topn : Z) (rows : list (list hit))
    (i : Z) (result result' : query_result) :
  (forall a b q, getitem a ids = Some q -> getitem b ids = Some q -> a = b) ->
  fill_result ids topn (enumerate_from i rows) result = inr result' ->
  forall idx q, getitem idx ids = Some q ->
    getitem q result' =
      if (i <=? idx) && (idx <? i + len rows)
      then option_map
             (fun inner =>
                set_all inner
                  (map hit_pair (slice_to (nth (Z.to_nat (idx - i)) rows []) topn)))
             (getitem q result)
      else getitem q result.
Proof.
  intros Hinj; revert i result; induction rows as [|hits rest IH];
    intros i result; simpl.
  - intros [= <-] idx q Hq.
    replace (idx <? i + len []) with (idx <? i) by (unfold len; simpl; f_equal; lia).
    destruct (i <=? idx) eqn:E1, (idx <? i) eqn:E2; simpl; try reflexivity.
    apply Z.leb_le in E1; apply Z.ltb_lt in E2; lia.
  - destruct (fill_hits (getitem i ids) (slice_to hits topn) result)
      as [e|result1] eqn:Ef; [discriminate|].
    intros Hr idx q Hq; rewrite (IH _ _ Hr idx q Hq).
    assert (Hlen : len (hits :: rest) = len rest + 1) by (unfold len; simpl; lia).
    rewrite Hlen.
    destruct (Z.eq_dec idx i) as [->|Hne].
    + rewrite Hq in Ef; apply fill_hits_entries in Ef as [Hqr _].
      replace (i + 1 <=? i) with false by (symmetry; apply Z.leb_gt; lia).
      replace (i <=? i) with true by (symmetry; apply Z.leb_le; lia).
      replace (i <? i + (len rest + 1)) with true
        by (symmetry; apply Z.ltb_lt; pose proof (len_nonneg rest); lia).
      simpl andb; cbv iota. now rewrite Z.sub_diag.
    + assert (Hsame : getitem q result1 = getitem q result).
      { destruct (getitem i ids) as [q0|] eqn:Ei.
        - apply fill_hits_entries in Ef as [_ Hother]. apply Hother.
          intros ->. apply Hne. exact (Hinj _ _ _ Hq Ei).
        - apply fill_hits_none in Ef as [_ ->]; reflexivity. }
      rewrite Hsame.
      destruct (i <=? idx) eqn:E1.
      * apply Z.leb_le in E1.
        replace (i + 1 <=? idx) with true by (symmetry; apply Z.leb_le; lia).
        replace (idx <? i + 1 + len rest) with (idx <? i + (len rest + 1))
          by (f_equal; lia).
        simpl andb. destruct (idx <? i + (len rest + 1)); [|reflexivity].
        replace (Z.to_nat (idx - i)) with (S (Z.to_nat (idx - (i + 1)))) by lia.
        reflexivity.
      * apply Z.leb_gt in E1.
        replace (i + 1 <=? idx) with false by (symmetry; apply Z.leb_gt; lia).
        reflexivity.
Qed.

Lemma getitem_enumerate_nth {A : Type} (l : list A) (k : Z) (x : A) :
  getitem k (enumerate l) = Some x -> 0 <= k /\ nth_error l (Z.to_nat k) = Some x.
Proof.
  intros Hg; apply getitem_Some_In in Hg; unfold enumerate in Hg.
  apply enumerate_from_In in Hg as [Hr Hn]; rewrite Z.sub_0_r in Hn.
  split; [lia | assumption].
Qed.

Lemma getitem_enumerate_None {A : Type} (l : list A) (k : Z) :
  getitem k (enumerate l) = None <-> ~ (0 <= k < len l).
Proof.
  rewrite getitem_None; unfold keys, enumerate; rewrite enumerate_from_keys.
  rewrite in_map_iff; split.
  - intros Hn Hr; apply Hn; exists (Z.to_nat k); split; [lia|].
    apply in_seq; unfold len in Hr; lia.
  - intros Hn [n [<- Hin]]; apply in_seq in Hin; apply Hn; unfold len; lia.
Qed.

Lemma enumerate_injective (ks : list qid) (a b : Z) (q : qid) :
  NoDup ks ->
  getitem a (enumerate ks) = Some q -> getitem b (enumerate ks) = Some q -> a = b.
Proof.
  intros Hnd Ha Hb.
  apply getitem_enumerate_nth in Ha as [Ha0 Ha]; apply getitem_enumerate_nth in Hb as [Hb0 Hb].
  assert (Hlt : (Z.to_nat a < List.length ks)%nat)
    by (apply nth_error_Some; congruence).
  pose proof (proj1 (NoDup_nth_error ks) Hnd _ _ Hlt (eq_trans Ha (eq_sym Hb))).
  lia.
Qed.

(** The pieces [most_similar] works with once the name is registered. *)
Lemma most_similar_unfold (queries : queries_arg) (topn : Z) (name : string)
    (self : Similarity) (f : score_fn) :
  queries_wf queries -> getitem name score_functions = Some f ->
  most_similar queries topn name self =
  fill_result (enumerate (query_ids queries)) topn
    (enumerate
       (semantic_search
          (_get_vector (Sentences (values (normalize_queries queries))))
          (np_array_float32 (corpus_embeddings self)) topn f))
    (map (fun q => (q, [])) (query_ids queries)).
Proof.
  intros Hwf Hf.
  pose proof (normalize_queries_keys queries Hwf) as Hkeys.
  pose proof (normalize_queries_wf queries Hwf) as Hnd.
  unfold most_similar.
  assert (Hc : contains name score_functions = true)
    by (unfold contains; now rewrite Hf).
  rewrite Hc, Hf; cbv zeta; simpl negb; cbv iota.
  rewrite (of_pairs_NoDup (enumerate (keys (normalize_queries queries))))
    by apply enumerate_from_NoDup.
  rewrite of_pairs_NoDup by (rewrite map_map; exact Hnd).
  rewrite Hkeys; unfold items.
  rewrite <- Hkeys; unfold keys; now rewrite map_map.
Qed.

(** X8: what [most_similar] returns for a query is read off the row that
    [semantic_search] gave for it: the first [topn] hits of that row
    ([hits[0:topn]]), keyed by their corpus ids in order of first
    appearance, a later score replacing an earlier one for the same id; a
    query without a row gets the empty mapping.  Hence, for [topn >= 0], no
    query gets more than [topn] entries. *)
Theorem most_similar_result_rows (queries : queries_arg) (topn : Z)
    (name : string) (self : Similarity) (f : score_fn) (result : query_result) :
  queries_wf queries -> getitem name score_functions = Some f ->
  most_similar queries topn name self = inr result ->
  let all_hits :=
    semantic_search (_get_vector (Sentences (values (normalize_queries queries))))
                    (np_array_float32 (corpus_embeddings self)) topn f in
  (forall (i : nat) (q : qid), nth_error (query_ids queries) i = Some q ->
     getitem q result =
     Some (of_pairs (map hit_pair (slice_to (nth i all_hits []) topn)))) /\
  (0 <= topn ->
   forall q inner, getitem q result = Some inner -> len inner <= topn).
Proof.
  intros Hwf Hf Hres; cbv zeta.
  pose proof (normalize_queries_keys queries Hwf) as Hkeys.
  pose proof (normalize_queries_wf queries Hwf) as Hnd.
  unfold wf in Hnd; rewrite Hkeys in Hnd.
  rewrite (most_similar_unfold queries topn name self f Hwf Hf) in Hres.
  set (all_hits := semantic_search _ _ topn f) in *.
  assert (Hrows : forall (i : nat) (q : qid), nth_error (query_ids queries) i = Some q ->
            getitem q result =
            Some (of_pairs (map hit_pair (slice_to (nth i all_hits []) topn)))).
  { intros i q Hq.
    assert (Hid : getitem (Z.of_nat i) (enumerate (query_ids queries)) = Some q).
    { apply getitem_enumerate. change (Z.of_nat i) with (0 + Z.of_nat i).
      now apply enumerate_from_nth. }
    unfold enumerate at 2 in Hres.
    rewrite (fill_result_entries _ _ _ _ _ _
               (fun a b q0 => enumerate_injective _ a b q0 Hnd) Hres _ _ Hid).
    match goal with
    | |- context [@getitem ?K ?V ?E q ?d] =>
        assert (Hq0 : @getitem K V E q d = Some [])
    end.
    { apply In_getitem_wf.
      - unfold wf, keys; rewrite map_map; simpl; now rewrite map_id.
      - apply in_map_iff; exists q; split; [reflexivity|].
        eapply nth_error_In; eassumption. }
    rewrite Hq0; simpl option_map.
    rewrite Z.sub_0_r, Nat2Z.id.
    destruct ((0 <=? Z.of_nat i) && (Z.of_nat i <? 0 + len all_hits)) eqn:Er;
      [reflexivity|].
    replace (nth i all_hits []) with (@nil hit);
      [unfold slice_to; destruct (topn <? 0); now rewrite firstn_nil|].
    symmetry; apply nth_overflow.
    apply andb_false_iff in Er as [Er|Er];
      [apply Z.leb_gt in Er | apply Z.ltb_ge in Er]; unfold len in *; lia. }
  split; [exact Hrows|].
  intros Htop q inner Hq.
  assert (Hin : In q (query_ids queries)).
  { apply fill_result_keys in Hres.
    assert (Hk : In q (keys result)).
    { destruct (in_dec key_eq_dec q (keys result)) as [Hk|Hk]; [assumption|].
      apply getitem_None in Hk; congruence. }
    rewrite Hres in Hk; unfold keys in Hk; rewrite map_map in Hk; simpl in Hk.
    now rewrite map_id in Hk. }
  apply In_nth_error in Hin as [i Hi].
  rewrite (Hrows i q Hi) in Hq; injection Hq as <-.
  unfold of_pairs, len.
  pose proof (length_set_all_bounds
                (map hit_pair (slice_to (nth i all_hits []) topn)) []) as Hb.
  rewrite length_map in Hb; simpl in Hb.
  assert (Hs : (List.length (slice_to (nth i all_hits []) topn) <= Z.to_nat topn)%nat).
  { unfold slice_to. replace (topn <? 0) with false by (symmetry; apply Z.ltb_ge; lia).
    rewrite length_firstn; lia. }
  lia.
Qed.

(** X9: with a registered score function, [most_similar] raises exactly
    when [semantic_search] gives a row beyond the last query whose slice
    [hits[0:topn]] is not empty, and what it raises is a [KeyError]; in every
    other case it returns. *)
Theorem most_similar_key_error_iff (queries : queries_arg) (topn : Z)
    (name : string) (self : Similarity) (f : score_fn) :
  queries_wf queries -> getitem name score_functions = Some f ->
  let all_hits :=
    semantic_search (_get_vector (Sentences (values (normalize_queries queries))))
                    (np_array_float32 (corpus_embeddings self)) topn f in
  (most_similar queries topn name self = inl KeyError <->
   exists (n : nat) (hits : list hit),
     nth_error all_hits n = Some hits /\
     (List.length (query_ids queries) <= n)%nat /\
     slice_to hits topn <> []) /\
  (forall e, most_similar queries topn name self = inl e -> e = KeyError).
Proof.
  intros Hwf Hf; cbv zeta.
  rewrite (most_similar_unfold queries topn name self f Hwf Hf).
  split; [|intros e He; now apply fill_result_error in He].
  set (all_hits := semantic_search _ _ topn f).
  set (ids := enumerate (query_ids queries)).
  assert (Hids : forall idx q (result : query_result),
             keys result = query_ids queries ->
             getitem idx ids = Some q -> In q (keys result)).
  { intros idx q result Hk Hq; rewrite Hk.
    apply getitem_enumerate_nth in Hq as [_ Hq]. eapply nth_error_In; eassumption. }
  assert (Hgen : forall rows i (result : query_result),
             0 <= i -> keys result = query_ids queries ->
             (fill_result ids topn (enumerate_from i rows) result = inl KeyError <->
              exists (n : nat) (hits : list hit),
                nth_error rows n = Some hits /\
                len (query_ids queries) <= i + Z.of_nat n /\
                slice_to hits topn <> [])).
  { induction rows as [|hits rest IH]; intros i result Hi Hk; simpl.
    - split; [discriminate | intros (n & hs & Hn & _); destruct n; discriminate].
    - destruct (fill_hits (getitem i ids) (slice_to hits topn) result)
        as [e|result1] eqn:Ef.
      + split; [intros _ | intros _; f_equal; now apply fill_hits_error in Ef].
        destruct (getitem i ids) as [q|] eqn:Ei.
        * exfalso; apply (fill_hits_fails _ _ _ _ Ef). exact (Hids i q result Hk Ei).
        * exists 0%nat, hits; repeat split.
          -- apply getitem_enumerate_None in Ei; lia.
          -- intros Hs; rewrite Hs in Ef; discriminate.
      + assert (Hk1 : keys result1 = query_ids queries)
          by (rewrite (fill_hits_keys _ _ _ _ Ef); exact Hk).
        rewrite (IH (i + 1) result1 ltac:(lia) Hk1); split.
        * intros (n & hs & Hn & Hge & Hs); exists (S n), hs; repeat split;
            [exact Hn | lia | exact Hs].
        * intros (n & hs & Hn & Hge & Hs); destruct n as [|n].
          -- exfalso; simpl in Hn; injection Hn as ->.
             destruct (getitem i ids) as [q|] eqn:Ei.
             ++ apply getitem_enumerate_nth in Ei as [_ Ei].
                assert ((Z.to_nat i < List.length (query_ids queries))%nat)
                  by (apply nth_error_Some; congruence).
                unfold len in Hge; lia.
             ++ apply fill_hits_none in Ef as [Ef _]; contradiction.
          -- exists n, hs; repeat split; [exact Hn | lia | exact Hs]. }
  unfold enumerate at 1; rewrite Hgen.
  - split; intros (n & hs & Hn & Hge & Hs); exists n, hs; repeat split;
      try assumption; unfold len in *; lia.
  - lia.
  - unfold keys; rewrite map_map; simpl; apply map_id.
Qed.

End MostSimilarMore.

(** ** More on [save_index] and [load_index] *)

Lemma combine_fst_same_length {A B : Type} (l : list A) (l' : list B) :
  List.length l = List.length l' -> map fst (combine l l') = l.
Proof.
  revert l'; induction l as [|x r IH]; intros [|y l'] Hlen; simpl in *;
    try discriminate; [reflexivity|].
  f_equal; apply IH; lia.
Qed.

Lemma combine_snd_same_length {A B : Type} (l : list A) (l' : list B) :
  List.length l = List.length l' -> map snd (combine l l') = l'.
Proof.
  revert l'; induction l as [|x r IH]; intros [|y l'] Hlen; simpl in *;
    try discriminate; [reflexivity|].
  f_equal; apply IH; lia.
Qed.

Section SnapshotsMore.
Context `{Float}.
Implicit Types (self : Similarity) (f : file).

(** Whatever way the loop ends, the corpus it leaves is the one it started
    from with some documents written under ids parsed from member names. *)
Lemma load_loop_writes (entries : list (string * entry)) (c c' : dict Z string)
    (acc : list embedding) (r : exn + list embedding) :
  load_loop entries c acc = (c', r) ->
  exists pairs : list (Z * string),
    c' = set_all c pairs /\
    forall k, In k (map fst pairs) ->
              exists name, In name (map fst entries) /\ py_int name = Some k.
Proof.
  revert c acc; induction entries as [|[id cd] rest IH]; intros c acc; simpl.
  - intros [= <- <-]; exists []; split; [reflexivity | intros k []].
  - destruct (doc cd) as [d|];
      [|intros [= <- <-]; exists []; split; [reflexivity | intros k []]].
    destruct (py_int id) as [i|] eqn:Ei;
      [|intros [= <- <-]; exists []; split; [reflexivity | intros k []]].
    destruct (doc_emb cd) as [v|].
    + intros Hl; apply IH in Hl as [pairs [-> Hk]].
      exists ((i, d) :: pairs); split; [reflexivity|].
      intros k [<-|Hin]; [exists id; split; [now left | assumption]|].
      destruct (Hk k Hin) as [name [Hn Hp]]; exists name; split; [now right | assumption].
    + intros [= <- <-]; exists [(i, d)]; split; [reflexivity|].
      intros k [<-|[]]; exists id; split; [now left | assumption].
Qed.

Lemma json_load_names (members : list (string * entry)) (name : string) :
  In name (keys (json_load members)) -> In name (map fst members).
Proof.
  unfold json_load, of_pairs; rewrite In_keys_set_all; intros [[]|Hin]; exact Hin.
Qed.

Lemma json_load_wf (members : list (string * entry)) : wf (json_load members).
Proof. apply (wf_set_all members []); constructor. Qed.

(** X10: however a call of [load_index] ends (returned, logged, or an
    exception on the way), no id of the corpus is lost; and when the member
    names of the file are plain ones (ASCII, at most 4300 characters), an
    id that no member name parses to keeps its document. *)
Theorem load_index_keeps_other_ids f self self' (o : outcome) :
  load_index f self = (self', o) ->
  (forall id, In id (keys (corpus self)) -> In id (keys (corpus self'))) /\
  (Forall plain_name (member_names f) ->
   forall id, (forall name, In name (member_names f) -> py_int name <> Some id) ->
              getitem id (corpus self') = getitem id (corpus self)).
Proof.
  intros Hl.
  cut ((forall id, In id (keys (corpus self)) -> In id (keys (corpus self'))) /\
       (forall id, (forall name, In name (member_names f) -> py_int name <> Some id) ->
                   getitem id (corpus self') = getitem id (corpus self)));
    [intros [Hkeep Hother]; split; [exact Hkeep | intros _; exact Hother]|].
  assert (Hloop : forall members c' r,
             f = FileJson members ->
             load_loop (items (json_load members)) (corpus self) [] = (c', r) ->
             (forall id, In id (keys (corpus self)) -> In id (keys c')) /\
             (forall id, (forall name, In name (member_names f) -> py_int name <> Some id) ->
                         getitem id c' = getitem id (corpus self))).
  { intros members c' r -> Hloop.
    apply load_loop_writes in Hloop as [pairs [-> Hk]]; split.
    - intros id Hin; apply In_keys_set_all; now left.
    - intros id Hn; apply getitem_set_all_other; intros Hin.
      destruct (Hk id Hin) as [name [Hname Hp]].
      apply (Hn name); [|assumption].
      simpl; apply json_load_names; exact Hname. }
  apply load_index_cases in Hl
    as [[_ [_ ->]] | [(members & e & c' & Ef & _ & _ & Hlp & ->)
                     | [(members & c' & embs & Ef & _ & Hlp & ->)
                       | (_ & _ & ->)]]].
  - split; auto.
  - exact (Hloop members c' _ Ef Hlp).
  - exact (Hloop members c' _ Ef Hlp).
  - split; auto.
Qed.

(** X11: a load that returns into a store with an empty corpus leaves as
    many documents as embeddings, with the ids in file order, provided the
    member names of the file are plain ones (ASCII, at most 4300
    characters) and no two different ones parse to the same id. *)
Theorem load_index_empty_corpus_aligned (members : list (string * entry))
    self self' :
  corpus self = [] ->
  Forall plain_name (map fst members) ->
  (forall n1 n2, In n1 (map fst members) -> In n2 (map fst members) ->
                 py_int n1 = py_int n2 -> n1 = n2) ->
  load_index (FileJson members) self = (self', Returned) ->
  aligned self' /\
  wf (corpus self') /\
  map Some (keys (corpus self')) = map py_int (keys (json_load members)).
Proof.
  intros Hempty _ Hinj Hl.
  apply load_index_cases in Hl
    as [[[E|E] _] | [(ms & e & c' & _ & E & _)
                    | [(ms & c' & embs & [= <-] & _ & Hloop & ->)
                      | (_ & [e E] & _)]]];
    try discriminate E.
  rewrite Hempty in Hloop; unfold items in Hloop.
  apply load_loop_returns in Hloop as [parsed [Hp [-> ->]]].
  assert (Hids : map Some (map fst (map fst parsed))
                 = map py_int (keys (json_load members))).
  { unfold keys; clear -Hp; induction Hp as [|m p ms ps Hx _ IH]; simpl;
      [reflexivity|].
    destruct Hx as [Hi _]; now rewrite Hi, IH. }
  assert (Hnd : NoDup (map fst (map fst parsed))).
  { apply (NoDup_map_inv (@Some Z)); rewrite Hids.
    apply Finite.Injective_map_NoDup_in; [|apply json_load_wf].
    intros n1 n2 H1 H2; apply Hinj; now apply json_load_names. }
  rewrite (set_all_fresh (map fst parsed) []) by (assumption || intros k _ []).
  simpl; repeat split.
  - unfold aligned, len; simpl; now rewrite !length_map.
  - exact Hnd.
  - exact Hids.
Qed.

(** X12: what [save_index] writes always loads, into any store: the load
    returns, writes the saved documents over the corpus of that store under
    their ids and makes the saved embeddings the embedding list.  (For a
    store with as many embeddings as documents, "saved" is all of them.) *)
Theorem save_then_load_into_any_store (src target : Similarity) :
  wf (corpus src) -> aligned src ->
  exists f,
    save_index src = inr f /\
    load_index f target =
      ({| corpus := update (corpus target) (corpus src);
          corpus_embeddings := corpus_embeddings src |}, Returned).
Proof.
  intros Hwf Hal; set (zs := combine (corpus src) (corpus_embeddings src)).
  assert (Hlen : List.length (corpus src) = List.length (corpus_embeddings src))
    by (unfold aligned, len in Hal; lia).
  assert (Hnd : NoDup (map fst (map fst zs))) by now apply NoDup_combine_fst.
  unfold save_index; unfold keys at 1; rewrite combine_keys; fold zs.
  rewrite corpus_emb_of_closed; [| |assumption|intros k _ []].
  - eexists; split; [reflexivity|].
    unfold load_index, load_index_try, json_load, json_dump, items.
    cbn [app]; rewrite map_map; cbn [fst snd].
    rewrite of_pairs_NoDup.
    + unfold items; rewrite load_loop_dumped; simpl.
      unfold zs, update, items.
      now rewrite combine_fst_same_length, combine_snd_same_length.
    + rewrite map_map; simpl.
      rewrite <- (map_map (fun z => fst (fst z)) py_str).
      apply Finite.Injective_map_NoDup; [intros a b; apply py_str_inj|].
      now rewrite <- (map_map fst fst).
  - intros z Hz. apply In_getitem_wf; [assumption|].
    apply combine_fst_In in Hz. now destruct z as [[k d] v].
Qed.

End SnapshotsMore.

Section InitRoundTrip.
Context `{SentenceModel}.

(** X13: the store [__init__] builds from any corpus argument survives
    [save_index] followed by [load_index] into a new store unchanged. *)
Theorem init_save_load_roundtrip (c : corpus_arg) :
  exists f,
    save_index (__init__ (Some c)) = inr f /\
    load_index f fresh = (__init__ (Some c), Returned).
Proof.
  assert (Hwf : wf (corpus (__init__ (Some c)))).
  { unfold __init__; rewrite add_corpus_corpus.
    apply (wf_set_all _ []); constructor. }
  pose proof (add_corpus_fresh_aligned c) as Hal.
  change (add_corpus c fresh) with (__init__ (Some c)) in Hal.
  destruct (save_load_zip _ Hwf) as [f [Hs Hl]].
  exists f; split; [exact Hs|]. rewrite Hl; f_equal.
  unfold aligned, len in Hal.
  rewrite combine_fst_same_length, combine_snd_same_length by lia.
  now destruct (__init__ (Some c)).
Qed.

End InitRoundTrip.

Section MappingArgument.
Context `{SentenceModel}.

(** X14: for a mapping argument the loop sees the keys only.  [new_corpus]
    pairs every key that is not a stored document with its position in the
    mapping, counted from [0] whatever the size of the corpus; the values of
    the mapping play no part in the call. *)
Theorem add_corpus_mapping_new_entries (d : dict string string)
    (self : Similarity) (k : Z) (t : string) :
  (In (k, t) (add_corpus_new (CorpusDict d) self) <->
   exists n : nat, k = Z.of_nat n /\ nth_error (keys d) n = Some t /\
                   is_new self t = true) /\
  (forall d' : dict string string,
     keys d' = keys d ->
     add_corpus (CorpusDict d') self = add_corpus (CorpusDict d) self).
Proof.
  split; [split|].
  - rewrite add_corpus_new_closed; simpl; intros Hin.
    apply filter_In in Hin as [Hin Hnew]; simpl in Hnew.
    apply enumerate_from_In in Hin as [Hr Hn]; rewrite Z.sub_0_r in Hn.
    exists (Z.to_nat k); repeat split; [lia | assumption | assumption].
  - intros [n [-> [Hn Hnew]]]; rewrite add_corpus_new_closed; simpl.
    apply filter_In; split; [|exact Hnew].
    change (Z.of_nat n) with (0 + Z.of_nat n). now apply enumerate_from_nth.
  - intros d' E; unfold add_corpus, add_corpus_new; simpl; now rewrite E.
Qed.

End MappingArgument.

Section LoadReturns.
Context `{Float}.

(** X15: [load_index] on a file that is a JSON object with plain member
    names (ASCII, at most 4300 characters) returns exactly when every member
    has a name that [int] accepts and carries both ["doc"] and ["doc_emb"];
    otherwise an exception leaves the call. *)
Theorem load_index_returns_iff (members : list (string * entry))
    (self : Similarity) :
  Forall plain_name (map fst members) ->
  ((exists self', load_index (FileJson members) self = (self', Returned)) <->
   Forall (fun m => (exists i, py_int (fst m) = Some i) /\
                    (exists d, doc (snd m) = Some d) /\
                    (exists v, doc_emb (snd m) = Some v))
          (json_load members)) /\
  (forall self' o, load_index (FileJson members) self = (self', o) ->
                   o = Returned \/ exists e, o = Raised e).
Proof.
  intros _; split; [split|].
  - intros [self' Hl].
    apply load_index_cases in Hl
      as [[[E|E] _] | [(ms & e & c' & _ & E & _)
                      | [(ms & c' & embs & [= <-] & _ & Hloop & _)
                        | (_ & [e E] & _)]]];
      try discriminate E.
    apply load_loop_returns in Hloop as [parsed [Hp _]].
    unfold items in Hp; revert Hp; generalize (json_load members) as ms0.
    intros ms0 Hp; induction Hp as [|m [[i d] v] ms1 ps Hx _ IH];
      constructor; [|exact IH].
    destruct Hx as [Hi [Hd Hv]]; simpl in *; repeat split; eauto.
  - intros Hall.
    assert (Hex : exists parsed, Forall2 parsed_entry (json_load members) parsed).
    { revert Hall; generalize (json_load members) as ms0; intros ms0 Hall.
      induction Hall as [|m ms1 [[i Hi] [[d Hd] [v Hv]]] _ [ps IH]].
      - exists []; constructor.
      - exists ((i, d, v) :: ps); constructor; [now repeat split | exact IH]. }
    destruct Hex as [parsed Hp].
    unfold load_index, load_index_try, items.
    rewrite (load_loop_parsed _ _ _ _ Hp); eexists; reflexivity.
  - intros self' o Hl.
    apply load_index_cases in Hl
      as [[[E|E] _] | [(ms & e & c' & _ & -> & _)
                      | [(ms & c' & embs & _ & -> & _)
                        | (_ & [e ->] & _)]]];
      try discriminate E; [right; now exists e | now left | right; now exists e].
Qed.

End LoadReturns.

(** ** Further runs on concrete inputs *)

Section MoreRuns.

Local Abbreviation entry_of d e := (Stub.mk_entry (Some d) (Some e)).

Ltac plain_names :=
  cbn [member_names map fst];
  repeat (constructor;
          [split; [cbn; repeat (constructor; [cbn; lia|]); constructor
                  | cbn; lia]|]);
  constructor.

Lemma add_corpus_list_dense_aligned_witness :
  let s := Stub.add_corpus (CorpusList ["a"; "b"]) Stub.empty in
  dense s /\ aligned s /\ aligned (Stub.add_corpus (CorpusList ["a"; "c"]) s).
Proof.
  cbv zeta; split; [reflexivity|]. split; [reflexivity|].
  apply (@add_corpus_list_dense_aligned Stub.Z_Float Stub.model); reflexivity.
Defined.

Lemma add_corpus_all_new_extends_witness :
  let s := Stub.add_corpus (CorpusList ["a"; "b"]) Stub.empty in
  corpus (Stub.add_corpus (CorpusList ["c"; "dd"]) s)
  = [(0, "a"); (1, "b"); (2, "c"); (3, "dd")].
Proof.
  cbv zeta.
  refine (proj1 (@add_corpus_all_new_extends Stub.Z_Float Stub.model ["c"; "dd"]
                   (Stub.add_corpus (CorpusList ["a"; "b"]) Stub.empty) _ _)).
  - reflexivity.
  - intros t [<-|[<-|[]]]; reflexivity.
Defined.

Lemma add_corpus_list_twice_witness :
  let s := Stub.add_corpus (CorpusList ["a"; "b"]) Stub.empty in
  Stub.add_corpus (CorpusList ["b"; "c"]) (Stub.add_corpus (CorpusList ["b"; "c"]) s)
  = Stub.add_corpus (CorpusList ["b"; "c"]) s.
Proof.
  cbv zeta.
  apply (@add_corpus_list_twice Stub.Z_Float Stub.model); reflexivity.
Defined.

Lemma most_similar_result_rows_witness :
  let s := Stub.add_corpus (CorpusList ["a"; "bb"]) Stub.empty in
  let result := [(QInt 0, [(0, 5)]); (QInt 1, [(0, 2)])] in
  Stub.most_similar (QueriesList ["text"; "b"]) 1 "dot" s = inr result /\
  getitem (QInt 1) result = Some [(0, 2)] /\
  (forall q inner, getitem q result = Some inner -> len inner <= 1).
Proof.
  cbv zeta; split; [reflexivity|].
  destruct (@most_similar_result_rows Stub.Z_Float Stub.model Stub.util
              (QueriesList ["text"; "b"]) 1 "dot"
              (Stub.add_corpus (CorpusList ["a"; "bb"]) Stub.empty)
              Stub.pairwise_dot [(QInt 0, [(0, 5)]); (QInt 1, [(0, 2)])]
              I eq_refl eq_refl) as [Hrows Hcap].
  split; [exact (Hrows 1%nat (QInt 1) eq_refl) | apply Hcap; lia].
Defined.

Lemma most_similar_key_error_iff_witness :
  let s := Stub.add_corpus (CorpusList ["a"; "bb"]) Stub.empty in
  @most_similar Stub.Z_Float Stub.model Stub.util_extra_row
    (QueriesStr "text") 1 "dot" s = inl KeyError.
Proof.
  cbv zeta.
  apply (proj1 (@most_similar_key_error_iff Stub.Z_Float Stub.model Stub.util_extra_row
                  (QueriesStr "text") 1 "dot"
                  (Stub.add_corpus (CorpusList ["a"; "bb"]) Stub.empty)
                  Stub.pairwise_dot I eq_refl)).
  exists 1%nat, [@Build_hit Stub.Z_Float 0 0]; repeat split.
  - simpl; lia.
  - discriminate.
Defined.

Lemma load_index_keeps_other_ids_witness :
  let s := Stub.add_corpus (CorpusList ["a"; "b"]) Stub.empty in
  let f := FileJson [("7", entry_of "c" [1; 1]); ("x", entry_of "d" [1; 1])] in
  let s' := Stub.mk [(0, "a"); (1, "b"); (7, "c")] [[1; 1]; [1; 1]] in
  Stub.load_index f s = (s', Raised ValueError) /\
  getitem 1 (corpus s') = getitem 1 (corpus s).
Proof.
  cbv zeta; split; [reflexivity|].
  refine (proj2 (@load_index_keeps_other_ids Stub.Z_Float
                   (FileJson [("7", entry_of "c" [1; 1]); ("x", entry_of "d" [1; 1])])
                   (Stub.add_corpus (CorpusList ["a"; "b"]) Stub.empty)
                   (Stub.mk [(0, "a"); (1, "b"); (7, "c")] [[1; 1]; [1; 1]])
                   (Raised ValueError) eq_refl) _ 1 _).
  - plain_names.
  - intros name [<-|[<-|[]]]; discriminate.
Defined.

Lemma load_index_empty_corpus_aligned_witness :
  let f := FileJson [("4", entry_of "a" [1; 1]); ("2", entry_of "b" [2; 1])] in
  let s' := Stub.mk [(4, "a"); (2, "b")] [[1; 1]; [2; 1]] in
  Stub.load_index f Stub.empty = (s', Returned) /\ aligned s'.
Proof.
  cbv zeta; split; [reflexivity|].
  refine (proj1 (@load_index_empty_corpus_aligned Stub.Z_Float
                   [("4", entry_of "a" [1; 1]); ("2", entry_of "b" [2; 1])]
                   Stub.empty (Stub.mk [(4, "a"); (2, "b")] [[1; 1]; [2; 1]])
                   eq_refl _ _ eq_refl)).
  - plain_names.
  - intros n1 n2 [<-|[<-|[]]] [<-|[<-|[]]] E; (reflexivity || discriminate E).
Defined.

Lemma load_index_returns_iff_witness :
  let good := [(" 4", entry_of "a" [1; 1]); ("1_0", entry_of "b" [2; 1])] in
  let bad := [("4", entry_of "a" [1; 1]); ("5", Stub.mk_entry (Some "b") None)] in
  (exists s', Stub.load_index (FileJson good) Stub.empty = (s', Returned)) /\
  ~ (exists s', Stub.load_index (FileJson bad) Stub.empty = (s', Returned)).
Proof.
  cbv zeta; split.
  - apply (proj1 (@load_index_returns_iff Stub.Z_Float
                    [(" 4", entry_of "a" [1; 1]); ("1_0", entry_of "b" [2; 1])]
                    Stub.empty ltac:(plain_names))).
    repeat (constructor;
            [split; [eexists; reflexivity | split; eexists; reflexivity]|]);
      constructor.
  - intros Hex.
    apply (proj1 (@load_index_returns_iff Stub.Z_Float
                    [("4", entry_of "a" [1; 1]); ("5", Stub.mk_entry (Some "b") None)]
                    Stub.empty ltac:(plain_names))) in Hex.
    inversion Hex as [|m ms _ Hrest]; subst.
    inversion Hrest as [|m' ms' [_ [_ [v Hv]]] _]; subst.
    discriminate Hv.
Defined.

Lemma save_then_load_into_any_store_witness :
  let src := Stub.add_corpus (CorpusList ["a"; "bb"]) Stub.empty in
  let target := Stub.add_corpus (CorpusList ["z"]) Stub.empty in
  exists f,
    Stub.save_index src = inr f /\
    Stub.load_index f target = (Stub.mk [(0, "a"); (1, "bb")] [[1; 1]; [2; 1]], Returned).
Proof.
  cbv zeta.
  apply (@save_then_load_into_any_store Stub.Z_Float
           (Stub.add_corpus (CorpusList ["a"; "bb"]) Stub.empty)
           (Stub.add_corpus (CorpusList ["z"]) Stub.empty)).
  - unfold wf; vm_compute;
      repeat (constructor; [simpl; intuition discriminate|]); constructor.
  - reflexivity.
Defined.

End MoreRuns.
